(** * input_latency: evdev timestamp-to-receipt latency sampler

    A shallow embedding of [input_latency.cpp] and the properties of its
    two pieces of real content: the per-event latency sampling of the
    main loop and the sort-based percentile summary.

    The program computes in C++ [double].  Every function below is written
    once, over an arithmetic interface [Arith], exactly as the source
    spells it; the interface is then instantiated

    - at [double], IEEE 754 binary64 as specified by the standard
      library's [SpecFloat] (one rounding to nearest-even per operation):
      this instance is the program;
    - at [Q], exact rational arithmetic: the same text evaluated without
      rounding, used to tell what is a property of the algorithm from
      what is an artefact of rounding. *)

From Stdlib Require Import String Ascii.
From Stdlib Require Import ZArith QArith Qround Lqa List Bool Lia.
From Stdlib Require Import Permutation Sorted SpecFloat.
Import ListNotations.

Local Open Scope Z_scope.
Local Open Scope bool_scope.

(** ** Machine integers *)

(** [uint64_t] and the 64-bit [size_t]: values are reduced modulo 2^64. *)
Definition u64 (x : Z) : Z := x mod 2 ^ 64.

(** The cast [(int)x] of a [size_t]: the low 32 bits, read as signed. *)
Definition to_int (x : Z) : Z := (x + 2 ^ 31) mod 2 ^ 32 - 2 ^ 31.

(** ** The arithmetic interface *)

Class Arith (D : Type) : Type := {
  of_Z : Z -> D;          (* a literal such as [100.0]; an integer converted to [double] *)
  trunc : D -> Z;         (* the cast [(size_t)x]: truncation toward zero *)
  add : D -> D -> D;
  sub : D -> D -> D;
  mul : D -> D -> D;
  div : D -> D -> D;
  leb : D -> D -> bool;   (* [x <= y] *)
  ltb : D -> D -> bool    (* [x < y] *)
}.

(** ** IEEE 754 binary64 *)

Definition double : Type := spec_float.

Module B64.

Definition prec : Z := 53.
Definition emax : Z := 1024.

(** Integer to [double], rounding to nearest-even beyond 2^53. *)
Definition of_Z (z : Z) : double := binary_normalize prec emax z 0 false.

(** [(size_t)x] for an [x] in range; NaN and the infinities, where the
    cast is undefined in C++, are sent to 0. *)
Definition trunc (x : double) : Z :=
  match x with
  | S754_finite s m e => cond_Zopp s (Z.shiftl (Zpos m) e)
  | _ => 0
  end.

Definition add : double -> double -> double := SFadd prec emax.
Definition sub : double -> double -> double := SFsub prec emax.
Definition mul : double -> double -> double := SFmul prec emax.
Definition div : double -> double -> double := SFdiv prec emax.
Definition leb : double -> double -> bool := SFleb.
Definition ltb : double -> double -> bool := SFltb.

(** A [double] proper: a canonical representation, and not NaN or an
    infinity. *)
Definition finite (x : double) : bool :=
  match x with
  | S754_zero _ => true
  | S754_finite _ m e => bounded prec emax m e
  | _ => false
  end.

(** Zero or positive, NaN excluded. *)
Definition nonneg (x : double) : bool :=
  match x with
  | S754_zero _ => true
  | S754_infinity s => negb s
  | S754_finite s _ _ => negb s
  | S754_nan => false
  end.

End B64.

#[export] Instance double_arith : Arith double := {
  of_Z := B64.of_Z;
  trunc := B64.trunc;
  add := B64.add;
  sub := B64.sub;
  mul := B64.mul;
  div := B64.div;
  leb := B64.leb;
  ltb := B64.ltb
}.

(** ** Exact arithmetic *)

#[export] Instance Q_arith : Arith Q := {
  of_Z := inject_Z;
  trunc := fun x => if Qle_bool 0 x then Qfloor x else Qceiling x;
  add := Qplus;
  sub := Qminus;
  mul := Qmult;
  div := Qdiv;
  leb := Qle_bool;
  ltb := fun x y => negb (Qle_bool y x)
}.

(** ** Records read from the device *)

(** Event types of [<linux/input-event-codes.h>]. *)
Definition EV_SYN : Z := 0.
Definition EV_KEY : Z := 1.
Definition EV_REL : Z := 2.
Definition EV_ABS : Z := 3.
Definition EV_MSC : Z := 4.
Definition EV_SW : Z := 5.
Definition EV_LED : Z := 17.
Definition EV_SND : Z := 18.
Definition EV_REP : Z := 20.
Definition EV_FF : Z := 21.
Definition EV_PWR : Z := 22.
Definition EV_FF_STATUS : Z := 23.

Record timespec : Type := { ts_sec : Z; ts_nsec : Z }.
Record timeval : Type := { tv_sec : Z; tv_usec : Z }.

Record input_event : Type := {
  ev_time : timeval;
  ev_type : Z;     (* __u16 *)
  ev_code : Z;     (* __u16 *)
  ev_value : Z     (* __s32 *)
}.

Definition ts_to_ns (ts : timespec) : Z :=
  u64 (u64 (ts_sec ts) * 1000000000 + u64 (ts_nsec ts)).

Definition tv_to_ns (tv : timeval) : Z :=
  u64 (u64 (tv_sec tv) * 1000000000 + u64 (tv_usec tv) * 1000).

Definition ev_type_to_str (type : Z) : string :=
  if type =? EV_SYN then "SYN"
  else if type =? EV_KEY then "KEY"
  else if type =? EV_REL then "REL"
  else if type =? EV_ABS then "ABS"
  else if type =? EV_MSC then "MSC"
  else if type =? EV_SW then "SW"
  else if type =? EV_LED then "LED"
  else if type =? EV_SND then "SND"
  else if type =? EV_REP then "REP"
  else if type =? EV_FF then "FF"
  else if type =? EV_PWR then "PWR"
  else if type =? EV_FF_STATUS then "FF_STATUS"
  else "UNK".

(** The test [bool measure = (ev.type == EV_KEY || ...)] of the main loop. *)
Definition measure (ev : input_event) : bool :=
  (ev_type ev =? EV_KEY) || (ev_type ev =? EV_ABS)
  || (ev_type ev =? EV_REL) || (ev_type ev =? EV_MSC).

(** Size of the read buffer, in records. *)
Definition BUF_EV : nat := 64.

(** ** [std::stoi] *)

Inductive stoi_error : Type := invalid_argument | out_of_range.

Definition isspace (c : ascii) : bool :=
  let n := Z.of_nat (nat_of_ascii c) in (n =? 32) || ((9 <=? n) && (n <=? 13)).

Definition digit_of (c : ascii) : option Z :=
  let n := Z.of_nat (nat_of_ascii c) in
  if (48 <=? n) && (n <=? 57) then Some (n - 48) else None.

Fixpoint skip_space (s : string) : string :=
  match s with
  | String c s' => if isspace c then skip_space s' else s
  | EmptyString => s
  end.

(** The longest prefix of decimal digits: its value, with [acc] as the
    digits already read, and whether any digit was read. *)
Fixpoint digits (s : string) (acc : Z) (seen : bool) : Z * bool :=
  match s with
  | String c s' =>
      match digit_of c with
      | Some d => digits s' (10 * acc + d) true
      | None => (acc, seen)
      end
  | EmptyString => (acc, seen)
  end.

(** [std::stoi(s)]: [strtol] in base 10 (blanks, an optional sign, then
    digits, the rest ignored); [std::invalid_argument] when there is no
    digit, [std::out_of_range] when the value does not fit an [int]. *)
Definition stoi (s : string) : stoi_error + Z :=
  let s1 := skip_space s in
  let '(neg, s2) :=
    match s1 with
    | String "-"%char r => (true, r)
    | String "+"%char r => (false, r)
    | _ => (false, s1)
    end in
  let '(n, seen) := digits s2 0 false in
  if negb seen then inl invalid_argument
  else
    let z := if neg then - n else n in
    if (- 2 ^ 31 <=? z) && (z <=? 2 ^ 31 - 1) then inr z else inl out_of_range.

(** ** The program *)

Section Program.

Context {D : Type} {A : Arith D}.

(** *** [percentile]

    [v.size() - 1] is a [size_t]; [i] is kept as the integer that the
    cast yields.  [v[i]] is [nth], with [0.0] where the index would be
    out of range: that is undefined in C++, and
    [percentile_index_in_range] shows that in binary64 a finite [p]
    never leads there. *)
Definition percentile (v : list D) (p : D) : D :=
  match v with
  | [] => of_Z 0
  | front :: _ =>
      if leb p (of_Z 0) then front
      else if leb (of_Z 100) p then last v (of_Z 0)
      else
        let idx := mul (div p (of_Z 100)) (of_Z (u64 (Z.of_nat (length v) - 1))) in
        let i := trunc idx in
        let frac := sub idx (of_Z i) in
        if i + 1 <? Z.of_nat (length v)
        then add (mul (nth (Z.to_nat i) v (of_Z 0)) (sub (of_Z 1) frac))
                 (mul (nth (Z.to_nat (i + 1)) v (of_Z 0)) frac)
        else nth (Z.to_nat i) v (of_Z 0)
  end.

(** *** [std::sort] with [operator<]

    Insertion sort stands for the library's algorithm: on numbers that
    [<] orders totally every sorting algorithm returns the same vector
    ([sort_unique]), and the samples of a run are such numbers
    ([summary_order_determined]). *)
Fixpoint insert (x : D) (l : list D) : list D :=
  match l with
  | [] => [x]
  | y :: l' => if ltb y x then y :: insert x l' else x :: l
  end.

Definition sort (l : list D) : list D := fold_right insert [] l.

(** *** Console output *)

Inductive msg : Type :=
| MUsage (prog : string)
| MUnknownArg (arg : string)
| MOpenError
| MClockWarn
| MDevice (dev name : string)
| MCollecting
| MIdle
| MPollError
| MReadError
| MEvent (type : string) (code value : Z) (latency : D)
| MStats (final_summary : bool) (count : nat) (avg p50 p95 p99 : D)
| MNoData
| MTotals (total measured : Z).

(** The messages written to [std::cerr] (or by [perror]). *)
Definition to_stderr (m : msg) : bool :=
  match m with
  | MUsage _ | MUnknownArg _ | MOpenError | MClockWarn | MPollError | MReadError => true
  | _ => false
  end.

(** *** The lambda [print_stats] *)

(** [avg] of the sorted copy: the running sum, then the division. *)
Definition average (v : list D) : D :=
  div (fold_left add v (of_Z 0)) (of_Z (Z.of_nat (length v))).

Definition print_stats (latencies_us : list D) (final_summary : bool) : list msg :=
  match latencies_us with
  | [] => []
  | _ :: _ =>
      let v := sort latencies_us in
      let avg := average v in
      let p50 := percentile v (of_Z 50) in
      let p95 := percentile v (of_Z 95) in
      let p99 := percentile v (of_Z 99) in
      [MStats final_summary (length v) avg p50 p95 p99]
  end.

(** *** State of the main loop *)

Record state : Type := {
  latencies_us : list D;
  total_events : Z;       (* size_t *)
  measured_events : Z;    (* size_t *)
  output : list msg       (* everything printed so far, oldest first *)
}.

Definition init_state (out : list msg) : state :=
  {| latencies_us := []; total_events := 0; measured_events := 0; output := out |}.

(** One pass of the body of the [for] loop: the record [ev], and the
    reading [now_ts] that [clock_gettime] returns if it is called. *)
Definition process_event (quiet : bool) (st : state) (x : input_event * timespec) : state :=
  let '(ev, now_ts) := x in
  let total := u64 (total_events st + 1) in
  if negb (measure ev) then
    {| latencies_us := latencies_us st; total_events := total;
       measured_events := measured_events st; output := output st |}
  else
    let now_ns := ts_to_ns now_ts in
    let evt_ns := tv_to_ns (ev_time ev) in
    if evt_ns <=? now_ns then
      let delta_us := div (of_Z (u64 (now_ns - evt_ns))) (of_Z 1000) in
      let lat := latencies_us st ++ [delta_us] in
      let measured := u64 (measured_events st + 1) in
      let line :=
        if quiet then []
        else [MEvent (ev_type_to_str (ev_type ev)) (ev_code ev) (ev_value ev) delta_us] in
      let rolling :=
        if negb quiet && (measured mod 50 =? 0) then print_stats lat false else [] in
      {| latencies_us := lat; total_events := total;
         measured_events := measured; output := output st ++ line ++ rolling |}
    else
      {| latencies_us := latencies_us st; total_events := total;
         measured_events := measured_events st; output := output st |}.

(** *** What the operating system answers in one iteration *)

Inductive read_result : Type :=
| ReadRetry                                        (* EAGAIN or EINTR *)
| ReadError                                        (* any other errno *)
| ReadOk (evs : list (input_event * timespec)).    (* whole records, in arrival order *)

Inductive poll_result : Type :=
| PollEINTR
| PollError
| PollTimeout
| PollReady (pollin : bool) (r : read_result).

Record iteration : Type := {
  g_stop : bool;          (* the flag as read by the loop condition *)
  polled : poll_result
}.

Definition say (m : list msg) (st : state) : state :=
  {| latencies_us := latencies_us st; total_events := total_events st;
     measured_events := measured_events st; output := output st ++ m |}.

(** The condition of the [while]. *)
Definition loop_cond (stop : bool) (limit : Z) (st : state) : bool :=
  negb stop
  && ((limit =? 0) || (to_int (u64 (Z.of_nat (length (latencies_us st)))) <? limit)).

Inductive loop_result : Type :=
| Done (st : state)       (* the loop was left *)
| Waiting (st : state).   (* the loop is still blocked in [poll] *)

(** The [while] loop against a finite trace of answers.  When the trace
    is used up the loop is left only if its condition fails whatever
    the flag. *)
Fixpoint run_loop (limit : Z) (quiet : bool) (env : list iteration) (st : state)
  : loop_result :=
  match env with
  | [] => if loop_cond false limit st then Waiting st else Done st
  | it :: env' =>
      if loop_cond (g_stop it) limit st then
        match polled it with
        | PollEINTR => run_loop limit quiet env' st
        | PollError => Done (say [MPollError] st)
        | PollTimeout => run_loop limit quiet env' (say (if quiet then [] else [MIdle]) st)
        | PollReady false _ => run_loop limit quiet env' st
        | PollReady true ReadRetry => run_loop limit quiet env' st
        | PollReady true ReadError => Done (say [MReadError] st)
        | PollReady true (ReadOk evs) =>
            run_loop limit quiet env' (fold_left (process_event quiet) (firstn BUF_EV evs) st)
        end
      else Done st
  end.

(** *** Command line *)

Inductive parse_result : Type :=
| Parsed (limit : Z) (quiet : bool)
| Unknown (arg : string)
| Thrown (e : stoi_error).

(** The [for] loop over [argv[2..]]. *)
Fixpoint parse_args (args : list string) (limit : Z) (quiet : bool) : parse_result :=
  match args with
  | [] => Parsed limit quiet
  | a :: rest =>
      match rest with
      | n :: rest' =>
          if String.eqb a "--limit" then
            match stoi n with
            | inr z => parse_args rest' z quiet
            | inl e => Thrown e
            end
          else if String.eqb a "--quiet" then parse_args rest limit true
          else Unknown a
      | [] =>
          if String.eqb a "--quiet" then Parsed limit true else Unknown a
      end
  end.

(** *** [main]

    The signal handler [on_sigint] only sets [g_stop]; the flag is part
    of what the surroundings answer.  [latencies_us.reserve] changes no
    value and is left out. *)

Record system : Type := {
  open_ok : bool;            (* [open] succeeds *)
  clock_ok : bool;           (* the EVIOCSCLOCKID request is accepted *)
  dev_name : string;         (* EVIOCGNAME, or "unknown" *)
  answers : list iteration
}.

Inductive outcome : Type :=
| Exit (code : Z) (out : list msg)          (* [return code] *)
| Terminate (e : stoi_error)                (* an exception nobody catches *)
| Blocked (st : state).                     (* still in the loop *)

(** The block after the loop. *)
Definition epilogue (st : state) : list msg :=
  (match latencies_us st with
   | [] => [MNoData]
   | _ :: _ => print_stats (latencies_us st) true
   end)
  ++ [MTotals (total_events st) (measured_events st)].

(** What is printed between [open] and the loop. *)
Definition startup (quiet : bool) (dev : string) (os : system) : list msg :=
  (if clock_ok os || quiet then [] else [MClockWarn])
  ++ (if quiet then [] else [MDevice dev (dev_name os); MCollecting]).

Definition main (argv : list string) (os : system) : outcome :=
  match argv with
  | [] => Exit 1 [MUsage ""]
  | [prog] => Exit 1 [MUsage prog]
  | prog :: dev :: args =>
      match parse_args args 0 false with
      | Unknown a => Exit 1 [MUnknownArg a]
      | Thrown e => Terminate e
      | Parsed limit quiet =>
          if negb (open_ok os) then Exit 1 [MOpenError]
          else
            match run_loop limit quiet (answers os) (init_state (startup quiet dev os)) with
            | Waiting st => Blocked st
            | Done st => Exit 0 (output st ++ epilogue st)
            end
      end
  end.

End Program.

Arguments msg : clear implicits.
Arguments state : clear implicits.
Arguments loop_result : clear implicits.
Arguments outcome : clear implicits.

(** ** Vocabulary of the statements *)

Section Vocabulary.

Context {D : Type} {A : Arith D}.

(** Receipt time minus device timestamp of a record, in nanoseconds, as a
    mathematical integer. *)
Definition delta_ns (x : input_event * timespec) : Z :=
  ts_to_ns (snd x) - tv_to_ns (ev_time (fst x)).

(** The latency sample of a record, in microseconds. *)
Definition sample_us (x : input_event * timespec) : D :=
  div (of_Z (delta_ns x)) (of_Z 1000).

(** The records that are timed: Measurable, with a delta that is not
    negative. *)
Definition timed (x : input_event * timespec) : bool :=
  measure (fst x) && (0 <=? delta_ns x).

(** The sample counts of the final summaries found in an output. *)
Fixpoint final_summaries (out : list (msg D)) : list nat :=
  match out with
  | [] => []
  | MStats true n _ _ _ _ :: out' => n :: final_summaries out'
  | _ :: out' => final_summaries out'
  end.

(** The sample counts of all the summaries, rolling or final. *)
Fixpoint summaries (out : list (msg D)) : list nat :=
  match out with
  | [] => []
  | MStats _ n _ _ _ _ :: out' => n :: summaries out'
  | _ :: out' => summaries out'
  end.

(** The state [st'] is reached from [st] when the records [xs] have gone,
    in this order, through the body of the [for] loop, whatever was
    printed in between: the points of a run. *)
Inductive reach (quiet : bool)
  : list (input_event * timespec) -> state D -> state D -> Prop :=
| reach_refl : forall st, reach quiet [] st st
| reach_event : forall xs st st' x,
    reach quiet xs st st' -> reach quiet (xs ++ [x]) st (process_event quiet st' x)
| reach_say : forall xs st st' m,
    reach quiet xs st st' -> reach quiet xs st (say m st').

(** What the loop may have printed when the accumulator holds [len]
    samples: no final summary, no closing notice or totals, no message of
    the start-up errors, and rolling summaries over at least one and at
    most [len] samples. *)
Definition loop_msg (len : nat) (m : msg D) : Prop :=
  match m with
  | MStats final n _ _ _ _ => final = false /\ (1 <= n <= len)%nat
  | MNoData | MTotals _ _ | MUsage _ | MUnknownArg _ | MOpenError => False
  | _ => True
  end.

(** The records that a trace of answers hands to the loop if it runs to
    the end of the trace: what fits the buffer, of every read that
    succeeds. *)
Fixpoint delivered (env : list iteration) : list (input_event * timespec) :=
  match env with
  | [] => []
  | {| polled := PollReady true (ReadOk evs) |} :: env' => firstn BUF_EV evs ++ delivered env'
  | _ :: env' => delivered env'
  end.

(** The state in which a result of [run_loop] leaves the program. *)
Definition state_of (r : loop_result D) : state D :=
  match r with Done st => st | Waiting st => st end.

(** The usage message. *)
Definition is_usage (m : msg D) : bool :=
  match m with MUsage _ => true | _ => false end.

(** The five numbers of a summary, without its framing. *)
Definition stats_of (m : msg D) : option (nat * D * D * D * D) :=
  match m with
  | MStats _ n avg p50 p95 p99 => Some (n, avg, p50, p95, p99)
  | _ => None
  end.

(** [r] is a least (greatest) element of [v]. *)
Definition is_minimum (v : list D) (r : D) : Prop :=
  In r v /\ Forall (fun x => leb r x = true) v.

Definition is_maximum (v : list D) (r : D) : Prop :=
  In r v /\ Forall (fun x => leb x r = true) v.

(** Ascending order: every element is below all the later ones. *)
Definition ascending (v : list D) : Prop :=
  StronglySorted (fun x y => leb x y = true) v.

(** The interpolation between order statistics, after the wording of the
    design: index = (p/100)*(n-1), i = floor(index), frac = index - i,
    result = sorted[i]*(1-frac) + sorted[i+1]*frac, clamped to the last
    element when i+1 is out of range. *)
Definition interpolation (sorted : list D) (p : D) : D :=
  let n := Z.of_nat (length sorted) in
  let index := mul (div p (of_Z 100)) (of_Z (n - 1)) in
  let i := trunc index in
  let frac := sub index (of_Z i) in
  if n <=? i + 1 then last sorted (of_Z 0)
  else add (mul (nth (Z.to_nat i) sorted (of_Z 0)) (sub (of_Z 1) frac))
           (mul (nth (Z.to_nat i + 1) sorted (of_Z 0)) frac).

(** The arithmetic mean: the sum, divided by the number of terms. *)
Definition mean (l : list D) : D :=
  div (fold_right add (of_Z 0) l) (of_Z (Z.of_nat (length l))).

End Vocabulary.

(** The interpolation of [percentile] at a real index [x], in exact
    arithmetic. *)
Definition interp (v : list Q) (x : Q) : Q :=
  let i := Qfloor x in
  if i + 1 <? Z.of_nat (length v)
  then (nth (Z.to_nat i) v 0 * (1 - (x - inject_Z i))
        + nth (Z.to_nat (i + 1)) v 0 * (x - inject_Z i))%Q
  else nth (Z.to_nat i) v 0%Q.

(** ** Vocabulary of sorting *)

(** What [std::sort] guarantees of its result: no element is less than
    an earlier one. *)
Definition std_sorted {D : Type} {A : Arith D} (v : list D) : Prop :=
  StronglySorted (fun x y => ltb y x = false) v.

(** The key of a number that is not NaN and has a clear sign bit: its
    class, exponent and mantissa. *)
Definition key (x : spec_float) : Z * Z * Z :=
  match x with
  | S754_zero _ => (0, 0, 0)
  | S754_finite _ m e => (1, e, Zpos m)
  | S754_infinity _ => (2, 0, 0)
  | S754_nan => (3, 0, 0)
  end.

(** The order of keys: by class, then exponent, then mantissa. *)
Definition key_lt (j k : Z * Z * Z) : Prop :=
  let '(c1, e1, m1) := j in
  let '(c2, e2, m2) := k in
  c1 < c2 \/ (c1 = c2 /\ (e1 < e2 \/ (e1 = e2 /\ m1 < m2))).

(** ** Binary64: vocabulary of the rounding lemmas *)

(** No bit was lost by the shifts recorded in [mrs]. *)
Definition shr_exact (mrs : shr_record) : bool := negb (shr_r mrs || shr_s mrs).

(** The location says that the mantissa is the exact value. *)
Definition loc_exact (l : location) : bool :=
  match l with loc_Exact => true | _ => false end.

(** The least integer above what a mantissa with location [l] may stand for,
    as an offset from the mantissa. *)
Definition loc_excess (l : location) : Z := if loc_exact l then 0 else 1.

(** [x] is not NaN and its sign bit is [s]. *)
Definition has_sign (s : bool) (x : spec_float) : Prop :=
  match x with
  | S754_zero s' | S754_infinity s' | S754_finite s' _ _ => s' = s
  | S754_nan => False
  end.

(** [x] is [+0], or positive and at most the integer [B]: a mantissa scaled
    by a power of two with an exponent that is not positive. *)
Definition at_most (B : Z) (x : spec_float) : Prop :=
  match x with
  | S754_zero s => s = false
  | S754_finite s m e => s = false /\ e <= 0 /\ Zpos m <= B * 2 ^ (- e)
  | _ => False
  end.

(** The literal [100.0]. *)
Definition hundred : spec_float := S754_finite false 7036874417766400 (-46).

(** ** Sample data *)

(** A synchronization marker stamped at 5 s. *)
Definition syn_report : input_event :=
  {| ev_time := {| tv_sec := 5; tv_usec := 0 |}; ev_type := EV_SYN; ev_code := 0; ev_value := 0 |}.

(** The samples of scenario A, in microseconds. *)
Definition scenario_A : list double := map B64.of_Z [100; 200; 300; 400; 500].

(** Two samples of 10 microseconds each. *)
Definition two_tens : list double := map B64.of_Z [10; 10].

(** A key press stamped at 5 s; clock readings at 5.00001 s (after the
    stamp) and at 4 s (before it). *)
Definition key_press : input_event :=
  {| ev_time := {| tv_sec := 5; tv_usec := 0 |}; ev_type := EV_KEY; ev_code := 30; ev_value := 1 |}.

Definition clock_after : timespec := {| ts_sec := 5; ts_nsec := 10000 |}.
Definition clock_before : timespec := {| ts_sec := 4; ts_nsec := 0 |}.

(** The samples of scenario B, in microseconds. *)
Definition scenario_B : list double := map B64.of_Z [10; 10; 10].

(** A device that opens and from which one read returns two key presses,
    both received after their timestamps. *)
Definition two_presses : system :=
  {| open_ok := true; clock_ok := true; dev_name := "keyboard";
     answers := [ {| g_stop := false;
                     polled := PollReady true
                                 (ReadOk [(key_press, clock_after); (key_press, clock_after)]) |} ] |}.

(** Command lines. *)
Definition argv_limit_1 : list string :=
  ["input_latency"; "/dev/input/event3"; "--limit"; "1"; "--quiet"]%string.

Definition argv_verbose : list string :=
  ["input_latency"; "/dev/input/event3"; "--verbose"]%string.

Definition argv_limit_abc : list string :=
  ["input_latency"; "/dev/input/event3"; "--limit"; "abc"]%string.

(** What [main] prints for [argv_limit_1] on [two_presses]: one final
    summary over two samples of 10 microseconds, then the totals. *)
Definition two_presses_output : list (msg double) :=
  [MStats true 2 (B64.of_Z 10) (B64.of_Z 10) (B64.of_Z 10) (B64.of_Z 10); MTotals 2 2].

From Stdlib Require DecimalString DecimalPos DecimalZ.

(** ** Vocabulary of the further properties *)

(** A time of day as the kernel hands it out: a count of seconds that is
    not negative, a sub-second part in range, and a total that fits 64
    bits of nanoseconds. *)
Definition normal_ts (ts : timespec) : Prop :=
  0 <= ts_sec ts <= 18446744072 /\ 0 <= ts_nsec ts < 1000000000.

Definition normal_tv (tv : timeval) : Prop :=
  0 <= tv_sec tv <= 18446744072 /\ 0 <= tv_usec tv < 1000000.

(** A [timeval] read as a [timespec]. *)
Definition tv_as_ts (tv : timeval) : timespec :=
  {| ts_sec := tv_sec tv; ts_nsec := tv_usec tv * 1000 |}.

(** The type codes that [ev_type_to_str] names. *)
Definition named_types : list Z :=
  [EV_SYN; EV_KEY; EV_REL; EV_ABS; EV_MSC; EV_SW; EV_LED; EV_SND; EV_REP; EV_FF; EV_PWR;
   EV_FF_STATUS].

Section MoreVocabulary.

Context {D : Type} {A : Arith D}.

(** The per-event lines of an output: label, code, value, latency. *)
Fixpoint event_lines (out : list (msg D)) : list (string * Z * Z * D) :=
  match out with
  | [] => []
  | MEvent type code value latency :: out' => (type, code, value, latency) :: event_lines out'
  | _ :: out' => event_lines out'
  end.

(** The line that the loop prints for a timed record. *)
Definition line_of (x : input_event * timespec) : string * Z * Z * D :=
  (ev_type_to_str (ev_type (fst x)), ev_code (fst x), ev_value (fst x), sample_us x).

(** What the loop computes, apart from what it prints. *)
Definition accum (st : state D) : list D * Z * Z :=
  (latencies_us st, total_events st, measured_events st).

(** Whether a result of [run_loop] is [Done]. *)
Definition is_done (r : loop_result D) : bool :=
  match r with Done _ => true | Waiting _ => false end.

End MoreVocabulary.

(** An answer on which the loop goes round again without a record: an
    interrupted or timed-out [poll], a readiness without [POLLIN], a
    [read] to be retried. *)
Definition transient (it : iteration) : bool :=
  match polled it with
  | PollEINTR | PollTimeout | PollReady false _ | PollReady true ReadRetry => true
  | _ => false
  end.

(** An answer that ends the loop: the stop flag, or a fatal error of
    [poll] or [read]. *)
Definition ending (it : iteration) : bool :=
  g_stop it
  || match polled it with
     | PollError | PollReady true ReadError => true
     | _ => false
     end.

(** A command line with a negative limit. *)
Definition argv_limit_minus_3 : list string :=
  ["input_latency"; "/dev/input/event3"; "--limit"; "-3"]%string.

(** An interrupted [poll], with the stop flag clear. *)
Definition interrupted_poll : iteration := {| g_stop := false; polled := PollEINTR |}.

(** Fifty key presses, each received 10 microseconds after its stamp. *)
Definition fifty_presses : list (input_event * timespec) := repeat (key_press, clock_after) 50.

(** The decimal writing of an integer: a minus sign if negative, then
    the digits, without leading zeros. *)
Definition decimal (z : Z) : string :=
  DecimalString.NilZero.string_of_int (Z.to_int z).

(** Whether a value fits an [int]. *)
Definition fits_int (z : Z) : bool := (- 2 ^ 31 <=? z) && (z <=? 2 ^ 31 - 1).

(** A string of blanks only. *)
Fixpoint blank (s : string) : bool :=
  match s with
  | String c s' => isspace c && blank s'
  | EmptyString => true
  end.

(** A string that does not go on with a digit. *)
Definition no_digit_ahead (s : string) : bool :=
  match s with
  | String c _ => match digit_of c with Some _ => false | None => true end
  | EmptyString => true
  end.

(** A command line whose limit is written with a blank before and text
    after. *)
Definition argv_limit_padded : list string :=
  ["--limit"; " 500us"; "--quiet"]%string.

(** What is printed, and the clock request. *)
Section ClockVocabulary.

Context {D : Type} {A : Arith D}.

(** A state with [pre] printed before everything else. *)
Definition printed_first (pre : list (msg D)) (st : state D) : state D :=
  {| latencies_us := latencies_us st; total_events := total_events st;
     measured_events := measured_events st; output := pre ++ output st |}.

(** An outcome of [main] with [pre] printed before everything else. *)
Definition outcome_after (pre : list (msg D)) (o : outcome D) : outcome D :=
  match o with
  | Exit code out => Exit code (pre ++ out)
  | Terminate e => Terminate e
  | Blocked st => Blocked (printed_first pre st)
  end.

End ClockVocabulary.

(** The same surroundings, with the EVIOCSCLOCKID request accepted or
    refused. *)
Definition with_clock (ok : bool) (os : system) : system :=
  {| open_ok := open_ok os; clock_ok := ok; dev_name := dev_name os; answers := answers os |}.
(** ** Machine integers: facts *)

Lemma u64_range (x : Z) : 0 <= u64 x < 2 ^ 64.
Proof. unfold u64. apply Z.mod_pos_bound. lia. Qed.

Lemma u64_small (x : Z) : 0 <= x < 2 ^ 64 -> u64 x = x.
Proof. intros H. unfold u64. now apply Z.mod_small. Qed.

Lemma to_int_small (x : Z) : - 2 ^ 31 <= x < 2 ^ 31 -> to_int x = x.
Proof. intros H. unfold to_int. rewrite Z.mod_small; lia. Qed.

Lemma ts_to_ns_range (ts : timespec) : 0 <= ts_to_ns ts < 2 ^ 64.
Proof. apply u64_range. Qed.

Lemma tv_to_ns_range (tv : timeval) : 0 <= tv_to_ns tv < 2 ^ 64.
Proof. apply u64_range. Qed.

Lemma delta_ns_u64 (x : input_event * timespec) :
  0 <= delta_ns x -> u64 (delta_ns x) = delta_ns x.
Proof.
  intros H. apply u64_small. unfold delta_ns in *.
  pose proof (ts_to_ns_range (snd x)). pose proof (tv_to_ns_range (ev_time (fst x))). lia.
Qed.

(** ** Binary64: rounding *)

Lemma digits2_pos_bounds (p : positive) :
  2 ^ (Zpos (digits2_pos p) - 1) <= Zpos p < 2 ^ Zpos (digits2_pos p).
Proof.
  induction p as [p IH | p IH |]; cbn [digits2_pos].
  - rewrite Pos2Z.inj_succ.
    replace (Z.succ (Zpos (digits2_pos p)) - 1) with (Z.succ (Zpos (digits2_pos p) - 1)) by lia.
    rewrite !Z.pow_succ_r by lia. lia.
  - rewrite Pos2Z.inj_succ.
    replace (Z.succ (Zpos (digits2_pos p)) - 1) with (Z.succ (Zpos (digits2_pos p) - 1)) by lia.
    rewrite !Z.pow_succ_r by lia. lia.
  - cbn. lia.
Qed.

Section Iter.
Context {A : Type} (f : A -> A).

Lemma iter_pos_count (P : Z -> A -> Prop) :
  (forall k y, 0 <= k -> P k y -> P (k + 1) (f y)) ->
  forall (p : positive) (k : Z) (x : A), 0 <= k -> P k x -> P (k + Zpos p) (iter_pos f p x).
Proof.
  intros Hstep. induction p as [p IH | p IH |]; intros k x Hk Hx; cbn [iter_pos].
  - replace (k + Zpos p~1) with (k + 1 + Zpos p + Zpos p) by lia.
    apply IH; [lia |]. apply IH; [lia |]. now apply Hstep.
  - replace (k + Zpos p~0) with (k + Zpos p + Zpos p) by lia.
    apply IH; [lia |]. now apply IH.
  - now apply Hstep.
Qed.
End Iter.


Lemma shr_1_spec (mrs : shr_record) :
  0 <= shr_m mrs ->
  shr_m (shr_1 mrs) = shr_m mrs / 2
  /\ shr_exact (shr_1 mrs) = shr_exact mrs && Z.even (shr_m mrs).
Proof.
  destruct mrs as [m r s]. unfold shr_exact. cbn [shr_m shr_r shr_s].
  intros Hm. destruct m as [| [p | p |] | p]; try lia; cbn [shr_1 shr_m shr_r shr_s].
  - split; [reflexivity |]. cbn. destruct r, s; reflexivity.
  - split; [rewrite Pos2Z.inj_xI; apply Z.div_unique with 1; lia |].
    cbn. destruct r, s; reflexivity.
  - split; [rewrite Pos2Z.inj_xO; apply Z.div_unique with 0; lia |].
    cbn. destruct r, s; reflexivity.
  - split; [reflexivity |]. cbn. destruct r, s; reflexivity.
Qed.

Lemma mod_pow2_succ (M k : Z) :
  0 <= k -> 
  (M mod 2 ^ (k + 1) =? 0) = (M mod 2 ^ k =? 0) && Z.even (M / 2 ^ k).
Proof.
  intros Hk.
  assert (H2 : 0 < 2 ^ k) by (apply Z.pow_pos_nonneg; lia).
  rewrite Z.pow_add_r, Z.pow_1_r by lia.
  rewrite Z.rem_mul_r by lia.
  pose proof (Z.mod_pos_bound M (2 ^ k) H2).
  pose proof (Z.mod_pos_bound (M / 2 ^ k) 2 ltac:(lia)).
  rewrite Zeven_mod.
  destruct (Z.eqb_spec (M mod 2 ^ k) 0), (Z.eqb_spec ((M / 2 ^ k) mod 2) 0);
    cbn; try (apply Z.eqb_eq; nia); apply Z.eqb_neq; nia.
Qed.

Lemma iter_shr_1_spec (p : positive) (mrs : shr_record) :
  0 <= shr_m mrs ->
  shr_m (iter_pos shr_1 p mrs) = shr_m mrs / 2 ^ Zpos p
  /\ shr_exact (iter_pos shr_1 p mrs) = shr_exact mrs && (shr_m mrs mod 2 ^ Zpos p =? 0).
Proof.
  intros Hm.
  pose (P := fun (k : Z) (y : shr_record) =>
               shr_m y = shr_m mrs / 2 ^ k
               /\ shr_exact y = shr_exact mrs && (shr_m mrs mod 2 ^ k =? 0)).
  change (P (Zpos p) (iter_pos shr_1 p mrs)).
  replace (Zpos p) with (0 + Zpos p) at 1 by lia.
  apply iter_pos_count.
  - intros k y Hk [Hy1 Hy2]. unfold P.
    assert (0 <= shr_m y) by (rewrite Hy1; apply Z.div_pos; [lia | apply Z.pow_pos_nonneg; lia]).
    destruct (shr_1_spec y H) as [H1 H2]. split.
    + rewrite H1, Hy1, Z.pow_add_r, Z.pow_1_r by lia.
      rewrite Z.div_div; [reflexivity | | lia]. apply Z.pow_nonzero; lia.
    + rewrite H2, Hy2, Hy1, mod_pow2_succ by lia. now rewrite andb_assoc.
  - lia.
  - unfold P. rewrite Z.pow_0_r, Z.div_1_r, Z.mod_1_r. cbn. now rewrite andb_true_r.
Qed.



Lemma exact_of_loc (m : Z) (l : location) : shr_exact (shr_record_of_loc m l) = loc_exact l.
Proof. destruct l as [| []]; reflexivity. Qed.

Lemma shr_m_of_loc (m : Z) (l : location) : shr_m (shr_record_of_loc m l) = m.
Proof. destruct l as [| []]; reflexivity. Qed.

Lemma shr_fexp_spec (M E : Z) (l : location) :
  0 <= M ->
  exists k, 0 <= k
    /\ snd (shr_fexp 53 1024 M E l) = E + k
    /\ shr_m (fst (shr_fexp 53 1024 M E l)) = M / 2 ^ k
    /\ shr_exact (fst (shr_fexp 53 1024 M E l)) = loc_exact l && (M mod 2 ^ k =? 0)
    /\ (k = 0 \/ E + k = fexp 53 1024 (Zdigits2 M + E)).
Proof.
  intros HM. unfold shr_fexp, shr.
  destruct (fexp 53 1024 (Zdigits2 M + E) - E) as [| p | p] eqn:Hn.
  - exists 0. cbn [fst snd]. rewrite shr_m_of_loc, exact_of_loc, Z.pow_0_r, Z.div_1_r, Z.mod_1_r.
    cbn. rewrite andb_true_r. repeat split; auto; lia.
  - exists (Zpos p). cbn [fst snd].
    destruct (iter_shr_1_spec p (shr_record_of_loc M l)) as [H1 H2];
      [now rewrite shr_m_of_loc |].
    rewrite shr_m_of_loc, exact_of_loc in *.
    repeat split; auto; lia.
  - exists 0. cbn [fst snd]. rewrite shr_m_of_loc, exact_of_loc, Z.pow_0_r, Z.div_1_r, Z.mod_1_r.
    cbn. rewrite andb_true_r. repeat split; auto; lia.
Qed.

Lemma round_nearest_even_bounds (mrs : shr_record) :
  let r := round_nearest_even (shr_m mrs) (loc_of_shr_record mrs) in
  shr_m mrs <= r <= shr_m mrs + (if shr_exact mrs then 0 else 1).
Proof.
  destruct mrs as [m [] []]; unfold shr_exact; cbn; try lia.
  destruct (Z.even m); lia.
Qed.

Lemma fexp_nonpos (M E B : Z) :
  0 <= M -> E <= 0 -> 0 < B < 2 ^ 53 -> M <= B * 2 ^ (- E) ->
  fexp 53 1024 (Zdigits2 M + E) <= 0.
Proof.
  intros HM HE HB Hle. unfold fexp, emin.
  destruct M as [| p | p]; [cbn [Zdigits2]; lia | | lia].
  cbn [Zdigits2]. pose proof (digits2_pos_bounds p) as [Hd _].
  assert (Hpow : 0 < 2 ^ (- E)) by (apply Z.pow_pos_nonneg; lia).
  assert (Hlt : 2 ^ (Zpos (digits2_pos p) - 1) < 2 ^ (53 - E)).
  { replace (53 - E) with (53 + - E) by lia. rewrite Z.pow_add_r by lia. nia. }
  apply Z.pow_lt_mono_r_iff in Hlt; lia.
Qed.

Lemma pow2_split (E E' k : Z) :
  E' = E + k -> E' <= 0 -> 0 <= k -> 2 ^ (- E) = 2 ^ (- E') * 2 ^ k.
Proof.
  intros -> H1 H2. rewrite <- Z.pow_add_r by lia. f_equal. lia.
Qed.

(** Rounding never crosses a representable integer bound. *)
Lemma binary_round_aux_le (s : bool) (M E : Z) (l : location) (B : Z) :
  0 <= M -> E <= 0 -> 0 < B < 2 ^ 53 -> M + loc_excess l <= B * 2 ^ (- E) ->
  match binary_round_aux 53 1024 s M E l with
  | S754_zero s' => s' = s
  | S754_finite s' m e => s' = s /\ e <= 0 /\ Zpos m <= B * 2 ^ (- e)
  | _ => False
  end.
Proof.
  intros HM HE HB Hle. unfold binary_round_aux.
  assert (HMle : M <= B * 2 ^ (- E)) by (unfold loc_excess in Hle; destruct (loc_exact l); lia).
  destruct (shr_fexp_spec M E l HM) as (k1 & Hk1 & HE1 & HM1 & Hx1 & Hc1).
  destruct (shr_fexp 53 1024 M E l) as [mrs1 E1]. cbn [fst snd] in *.
  pose proof (round_nearest_even_bounds mrs1) as Hr. cbn zeta in Hr.
  set (M2 := round_nearest_even (shr_m mrs1) (loc_of_shr_record mrs1)) in *.
  assert (HP1 : 0 < 2 ^ k1) by (apply Z.pow_pos_nonneg; lia).
  assert (HM1' : 0 <= shr_m mrs1) by (rewrite HM1; apply Z.div_pos; lia).
  assert (HA : E1 <= 0 /\ 0 <= M2 <= B * 2 ^ (- E1)).
  { assert (HE1' : E1 <= 0).
    { destruct Hc1 as [-> | Hc1]; [lia |]. rewrite HE1, Hc1. now apply fexp_nonpos with B. }
    split; [exact HE1' |]. split; [lia |].
    rewrite (pow2_split E E1 k1) in Hle, HMle by lia.
    assert (HK : 0 < 2 ^ (- E1)) by (apply Z.pow_pos_nonneg; lia).
    pose proof (Z.div_mod M (2 ^ k1) ltac:(lia)) as Hdm.
    pose proof (Z.mod_pos_bound M (2 ^ k1) HP1) as Hmod.
    rewrite <- HM1 in Hdm.
    unfold loc_excess in Hle. rewrite Hx1 in Hr.
    destruct (loc_exact l); cbn [andb] in Hr.
    - destruct (Z.eqb_spec (M mod 2 ^ k1) 0); nia.
    - nia. }
  destruct HA as [HE1' HM2].
  destruct (shr_fexp_spec M2 E1 loc_Exact ltac:(lia)) as (k2 & Hk2 & HE2 & HM3 & _ & Hc2).
  destruct (shr_fexp 53 1024 M2 E1 loc_Exact) as [mrs2 E2]. cbn [fst snd] in *.
  assert (HP2 : 0 < 2 ^ k2) by (apply Z.pow_pos_nonneg; lia).
  assert (HB' : E2 <= 0 /\ 0 <= shr_m mrs2 <= B * 2 ^ (- E2)).
  { assert (HE2' : E2 <= 0).
    { destruct Hc2 as [-> | Hc2]; [lia |]. rewrite HE2, Hc2. apply fexp_nonpos with B; lia. }
    split; [exact HE2' |]. rewrite HM3. split; [apply Z.div_pos; lia |].
    rewrite (pow2_split E1 E2 k2) in HM2 by lia.
    apply Z.div_le_upper_bound; [lia |]. lia. }
  destruct HB' as [HE2' HM3'].
  destruct (shr_m mrs2) as [| m | m]; [reflexivity | | lia].
  replace (E2 <=? 1024 - 53) with true by (symmetry; apply Z.leb_le; lia).
  repeat split; [exact HE2' | lia].
Qed.



Lemma binary_round_aux_sign (s : bool) (M E : Z) (l : location) :
  0 <= M -> has_sign s (binary_round_aux 53 1024 s M E l).
Proof.
  intros HM. unfold binary_round_aux.
  destruct (shr_fexp_spec M E l HM) as (k1 & Hk1 & _ & HM1 & _).
  destruct (shr_fexp 53 1024 M E l) as [mrs1 E1]. cbn [fst snd] in *.
  pose proof (round_nearest_even_bounds mrs1) as Hr. cbn zeta in Hr.
  set (M2 := round_nearest_even (shr_m mrs1) (loc_of_shr_record mrs1)) in *.
  assert (0 <= shr_m mrs1)
    by (rewrite HM1; apply Z.div_pos; [lia | apply Z.pow_pos_nonneg; lia]).
  destruct (shr_fexp_spec M2 E1 loc_Exact ltac:(lia)) as (k2 & Hk2 & _ & HM3 & _).
  destruct (shr_fexp 53 1024 M2 E1 loc_Exact) as [mrs2 E2]. cbn [fst snd] in *.
  assert (0 <= shr_m mrs2)
    by (rewrite HM3; apply Z.div_pos; [lia | apply Z.pow_pos_nonneg; lia]).
  destruct (shr_m mrs2) as [| m | m]; [reflexivity | | lia].
  destruct (E2 <=? 1024 - 53); reflexivity.
Qed.

Lemma iter_xO (d m : positive) : Zpos (Pos.iter xO m d) = Zpos m * 2 ^ Zpos d.
Proof.
  induction d as [| d IH] using Pos.peano_ind.
  - cbn. lia.
  - rewrite Pos.iter_succ, Pos2Z.inj_xO, IH, Pos2Z.inj_succ, Z.pow_succ_r by lia. lia.
Qed.

Lemma shl_align_spec (mx : positive) (ex ex' : Z) :
  snd (shl_align mx ex ex') <= ex
  /\ snd (shl_align mx ex ex') <= Z.max ex' (Z.min ex ex')
  /\ Zpos (fst (shl_align mx ex ex')) = Zpos mx * 2 ^ (ex - snd (shl_align mx ex ex')).
Proof.
  unfold shl_align. destruct (ex' - ex) as [| d | d] eqn:Hd; cbn [fst snd].
  - rewrite Z.sub_diag. cbn. lia.
  - rewrite Z.sub_diag. cbn. lia.
  - rewrite iter_xO. replace (ex - ex') with (Zpos d) by lia. lia.
Qed.

Lemma binary_round_sign (s : bool) (m : positive) (e : Z) :
  has_sign s (binary_round 53 1024 s m e).
Proof.
  unfold binary_round.
  destruct (shl_align m e (fexp 53 1024 (Zpos (digits2_pos m) + e))) as [mz ez].
  apply binary_round_aux_sign. lia.
Qed.

Lemma of_Z_sign (z : Z) : 0 <= z -> has_sign false (binary_normalize 53 1024 z 0 false).
Proof.
  intros Hz. destruct z as [| p | p]; [reflexivity | | lia].
  apply binary_round_sign.
Qed.

Lemma of_Z_at_most (z : Z) :
  0 < z < 2 ^ 53 -> at_most z (binary_normalize 53 1024 z 0 false).
Proof.
  intros Hz. destruct z as [| p | p]; try lia.
  unfold binary_normalize, binary_round.
  pose proof (shl_align_spec p 0 (fexp 53 1024 (Zpos (digits2_pos p) + 0))) as (H1 & _ & H3).
  destruct (shl_align p 0 (fexp 53 1024 (Zpos (digits2_pos p) + 0))) as [mz ez].
  cbn [fst snd] in *.
  apply (binary_round_aux_le false (Zpos mz) ez loc_Exact (Zpos p)); try lia.
  unfold loc_excess. cbn [loc_exact]. rewrite H3, Z.sub_0_l. lia.
Qed.

Lemma div_sign (x y : spec_float) :
  has_sign false x -> has_sign false y ->
  match y with S754_finite _ _ _ => True | _ => False end ->
  has_sign false (SFdiv 53 1024 x y).
Proof.
  destruct x as [sx | sx | | sx mx ex], y as [sy | sy | | sy my ey];
    cbn [has_sign]; try tauto; intros -> -> _; try reflexivity.
  unfold SFdiv, SFdiv_core_binary.
  destruct (Z.div_eucl _ (Zpos my)) as [q r] eqn:Hq.
  apply binary_round_aux_sign.
  match type of Hq with Z.div_eucl ?a ?b = _ =>
    assert (Hdiv : q = a / b) by (unfold Z.div; now rewrite Hq);
    assert (Ha : 0 <= a)
  end.
  { destruct (ex - ey - _) as [| p | p]; try lia. apply Z.shiftl_nonneg. lia. }
  rewrite Hdiv. apply Z.div_pos; lia.
Qed.


Lemma bounded_mantissa (m : positive) (e : Z) :
  bounded 53 1024 m e = true -> Zpos m < 2 ^ 53.
Proof.
  unfold bounded, canonical_mantissa, fexp, emin.
  intros [Hc _]%andb_true_iff. apply Z.eqb_eq in Hc.
  pose proof (digits2_pos_bounds m) as [_ Hd].
  eapply Z.lt_le_trans; [exact Hd |]. apply Z.pow_le_mono_r; lia.
Qed.

(** A positive number below 100, divided by 100, is at most 1. *)
Lemma div_hundred_at_most (m : positive) (e : Z) :
  bounded 53 1024 m e = true ->
  SFleb hundred (S754_finite false m e) = false ->
  at_most 1 (SFdiv 53 1024 (S754_finite false m e) hundred).
Proof.
  intros Hb Hlt. pose proof (bounded_mantissa m e Hb) as Hm.
  assert (Hcmp : e < -46 \/ e = -46 /\ Zpos m < 7036874417766400).
  { unfold SFleb, hundred, SFcompare in Hlt.
    destruct (Z.compare_spec (-46) e) as [He | He | He]; [| discriminate | lia].
    right. split; [lia |].
    change (Pos.compare_cont Eq 7036874417766400 m) with (Pos.compare 7036874417766400 m) in Hlt.
    destruct (Pos.compare_spec 7036874417766400 m) as [? | ? | Hgt]; try discriminate.
    exact Hgt. }
  unfold SFdiv, hundred, SFdiv_core_binary.
  change (Zdigits2 (Zpos 7036874417766400)) with 53.
  set (e' := Z.min (fexp 53 1024 (Zdigits2 (Zpos m) + e - (53 + -46))) (e - -46)).
  set (s := e - -46 - e').
  set (m' := match s with Zpos _ => Z.shiftl (Zpos m) s | 0 => Zpos m | Zneg _ => 0 end).
  assert (He' : e' <= 0).
  { subst e'. unfold fexp, emin. cbn [Zdigits2].
    pose proof (digits2_pos_bounds m) as [Hd _].
    assert (2 ^ (Zpos (digits2_pos m) - 1) < 2 ^ 53) by lia.
    apply Z.pow_lt_mono_r_iff in H; lia. }
  assert (Hs : 0 <= s) by (subst s e'; lia).
  assert (Hm' : m' = Zpos m * 2 ^ s).
  { subst m'. destruct s as [| p | p] eqn:E; [cbn; lia | | lia].
    now rewrite Z.shiftl_mul_pow2 by lia. }
  destruct (Z.div_eucl m' (Zpos 7036874417766400)) as [q r] eqn:Hq.
  assert (Hdiv : q = m' / 7036874417766400) by (unfold Z.div; now rewrite Hq).
  assert (Hps : 0 < 2 ^ s) by (apply Z.pow_pos_nonneg; lia).
  assert (Hsplit : 2 ^ (- e') = 2 ^ s * 2 ^ (- (e + 46))).
  { rewrite <- Z.pow_add_r by lia. f_equal. subst s. lia. }
  assert (Hj : 0 < 2 ^ (- (e + 46))) by (apply Z.pow_pos_nonneg; lia).
  assert (Hlt' : m' < 7036874417766400 * 2 ^ (- e')).
  { rewrite Hm', Hsplit.
    assert (Zpos m < 7036874417766400 * 2 ^ (- (e + 46))).
    { destruct Hcmp as [He | [-> Hmm]]; [| cbn; lia].
      assert (2 ^ 1 <= 2 ^ (- (e + 46))) by (apply Z.pow_le_mono_r; lia).
      change (2 ^ 53) with 9007199254740992 in Hm. lia. }
    nia. }
  apply (binary_round_aux_le (xorb false false) q e' _ 1); try lia.
  - rewrite Hdiv. apply Z.div_pos; lia.
  - assert (q < 2 ^ (- e')) by (rewrite Hdiv; apply Z.div_lt_upper_bound; lia).
    unfold loc_excess. destruct (loc_exact _); lia.
Qed.

Lemma mul_at_most (B : Z) (x y : spec_float) :
  0 < B < 2 ^ 53 -> at_most 1 x -> at_most B y -> at_most B (SFmul 53 1024 x y).
Proof.
  intros HB Hx Hy.
  destruct x as [sx | sx | | sx mx ex], y as [sy | sy | | sy my ey];
    cbn [at_most] in *; try tauto.
  - now subst.
  - destruct Hy as [-> _]. now subst.
  - destruct Hx as [-> _]. now subst.
  - destruct Hx as (-> & Hex & Hmx), Hy as (-> & Hey & Hmy).
    unfold SFmul.
    apply (binary_round_aux_le (xorb false false) (Zpos (mx * my)) (ex + ey) loc_Exact B);
      try lia.
    unfold loc_excess. cbn [loc_exact].
    replace (- (ex + ey)) with (- ex + - ey) by lia. rewrite Z.pow_add_r by lia.
    assert (0 < 2 ^ (- ex)) by (apply Z.pow_pos_nonneg; lia).
    assert (0 < 2 ^ (- ey)) by (apply Z.pow_pos_nonneg; lia).
    rewrite Pos2Z.inj_mul. nia.
Qed.

Lemma mul_zero_r (x : spec_float) :
  at_most 1 x -> SFmul 53 1024 x (S754_zero false) = S754_zero false.
Proof.
  destruct x as [sx | sx | | sx mx ex]; cbn [at_most]; try tauto.
  - now intros ->.
  - now intros [-> _].
Qed.

Lemma trunc_at_most (B : Z) (x : spec_float) :
  0 <= B -> at_most B x ->
  0 <= match x with
       | S754_finite s m e => cond_Zopp s (Z.shiftl (Zpos m) e)
       | _ => 0
       end <= B.
Proof.
  intros HB. destruct x as [sx | sx | | sx mx ex]; cbn [at_most]; try tauto; try lia.
  intros (-> & He & Hm). cbn [cond_Zopp].
  rewrite Z.shiftl_div_pow2 by lia.
  assert (0 < 2 ^ (- ex)) by (apply Z.pow_pos_nonneg; lia).
  split; [apply Z.div_pos; lia |].
  apply Z.div_le_upper_bound; lia.
Qed.

(** ** One record through the loop body *)

Section Sampling.

Context {D : Type} {A : Arith D}.

Implicit Types (st : state D) (x : input_event * timespec).

Lemma timed_spec x :
  timed x = true <-> measure (fst x) = true /\ tv_to_ns (ev_time (fst x)) <= ts_to_ns (snd x).
Proof.
  unfold timed, delta_ns. rewrite andb_true_iff, Z.leb_le. intuition lia.
Qed.

Lemma process_event_total quiet st x :
  total_events (process_event quiet st x) = u64 (total_events st + 1).
Proof.
  destruct x as [ev now]. unfold process_event.
  destruct (measure ev); cbn; [| reflexivity].
  destruct (tv_to_ns (ev_time ev) <=? ts_to_ns now); reflexivity.
Qed.

Lemma process_event_timed quiet st x :
  timed x = true ->
  latencies_us (process_event quiet st x) = latencies_us st ++ [sample_us x]
  /\ measured_events (process_event quiet st x) = u64 (measured_events st + 1).
Proof.
  intros H. pose proof H as [Hm Hle]%timed_spec.
  destruct x as [ev now]. cbn [fst snd] in *. unfold process_event.
  rewrite Hm. cbn [negb].
  apply Z.leb_le in Hle. rewrite Hle. cbn [latencies_us measured_events].
  split; [| reflexivity].
  unfold sample_us. rewrite <- (delta_ns_u64 (ev, now)); [reflexivity |].
  unfold delta_ns. cbn [fst snd]. apply Z.leb_le in Hle. lia.
Qed.

Lemma process_event_untimed quiet st x :
  timed x = false ->
  latencies_us (process_event quiet st x) = latencies_us st
  /\ measured_events (process_event quiet st x) = measured_events st
  /\ output (process_event quiet st x) = output st.
Proof.
  destruct x as [ev now]. unfold timed, delta_ns, process_event. cbn [fst snd].
  destruct (measure ev); cbn [negb andb]; [| now intros _].
  intros H.
  replace (tv_to_ns (ev_time ev) <=? ts_to_ns now) with false; [now cbn |].
  symmetry. apply Z.leb_gt. apply Z.leb_gt in H. lia.
Qed.

(** The accumulator after a batch: the samples of the timed records are
    appended, in arrival order. *)
Lemma fold_process_latencies quiet xs st :
  latencies_us (fold_left (process_event quiet) xs st)
  = latencies_us st ++ map sample_us (filter timed xs).
Proof.
  revert st. induction xs as [| x xs IH]; intros st; cbn [fold_left filter map].
  - now rewrite app_nil_r.
  - rewrite IH. destruct (timed x) eqn:Hx.
    + destruct (process_event_timed quiet st x Hx) as [-> _].
      cbn [map]. now rewrite <- app_assoc.
    + now destruct (process_event_untimed quiet st x Hx) as [-> _].
Qed.

Lemma measure_spec (ev : input_event) :
  measure ev = true <->
  ev_type ev = EV_KEY \/ ev_type ev = EV_ABS \/ ev_type ev = EV_REL \/ ev_type ev = EV_MSC.
Proof.
  unfold measure. rewrite !orb_true_iff, !Z.eqb_eq. tauto.
Qed.

End Sampling.

(** ** Classification of records *)

(** C5. A record is Measurable exactly when its type is key-state,
    absolute-position, relative-motion or miscellaneous.  A Measurable
    record goes on to the timing guard: when the clock reading is not
    before its timestamp, its latency -- the difference of the two, in
    nanoseconds, over [1000.0] -- is appended to the accumulator and both
    counters are incremented.  A record of any other type -- a
    synchronization marker among them -- is never timed, whatever its
    timestamp and whatever the clock reads: the accumulator, the measured
    counter and the output are left as they are, and the total-seen
    counter is incremented. *)
Theorem classify_measurable :
  forall (ev : input_event),
    (measure ev = true <->
     ev_type ev = EV_KEY \/ ev_type ev = EV_ABS \/ ev_type ev = EV_REL \/ ev_type ev = EV_MSC)
    /\ (measure ev = true ->
        forall (quiet : bool) (st : state double) (now : timespec),
          tv_to_ns (ev_time ev) <= ts_to_ns now ->
          latencies_us (process_event quiet st (ev, now))
          = latencies_us st
            ++ [B64.div (B64.of_Z (u64 (ts_to_ns now - tv_to_ns (ev_time ev))))
                        (B64.of_Z 1000)]
          /\ measured_events (process_event quiet st (ev, now))
             = u64 (measured_events st + 1)
          /\ total_events (process_event quiet st (ev, now))
             = u64 (total_events st + 1))
    /\ (measure ev = false ->
        forall (quiet : bool) (st : state double) (now : timespec),
          process_event quiet st (ev, now)
          = {| latencies_us := latencies_us st;
               total_events := u64 (total_events st + 1);
               measured_events := measured_events st;
               output := output st |})
    /\ (ev_type ev = EV_SYN -> measure ev = false).
Proof.
  intros ev. split; [apply measure_spec | split; [| split]].
  - intros Hm quiet st now Hle. unfold process_event. rewrite Hm. cbn [negb].
    apply Z.leb_le in Hle. rewrite Hle.
    cbn [latencies_us measured_events total_events]. now repeat split.
  - intros Hm quiet st now. unfold process_event. now rewrite Hm.
  - intros Hsyn. unfold measure. now rewrite Hsyn.
Qed.

Lemma classify_measurable_witness :
  (measure syn_report = false
   /\ process_event false (init_state []) (syn_report, {| ts_sec := 9; ts_nsec := 0 |})
      = {| latencies_us := @nil double; total_events := 1; measured_events := 0;
           output := [] |})
  /\ (measure key_press = true
      /\ latencies_us (process_event false (init_state []) (key_press, clock_after))
         = [B64.of_Z 10]
      /\ measured_events (process_event false (init_state (D := double) [])
                            (key_press, clock_after)) = 1).
Proof.
  split.
  - split; [reflexivity |].
    destruct (classify_measurable syn_report) as [_ [_ [H _]]].
    rewrite (H eq_refl false (init_state []) {| ts_sec := 9; ts_nsec := 0 |}).
    reflexivity.
  - split; [reflexivity |].
    destruct (classify_measurable key_press) as [_ [H _]].
    destruct (H eq_refl false (init_state []) clock_after ltac:(vm_compute; discriminate))
      as (Hl & Hm & _).
    rewrite Hl, Hm. split; reflexivity.
Defined.

(** ** [percentile], whatever the arithmetic *)

Section Percentile.

Context {D : Type} {A : Arith D}.

Lemma percentile_nonempty (v : list D) (p : D) :
  v <> [] ->
  percentile v p =
  if leb p (of_Z 0) then hd (of_Z 0) v
  else if leb (of_Z 100) p then last v (of_Z 0)
  else
    let idx := mul (div p (of_Z 100)) (of_Z (u64 (Z.of_nat (length v) - 1))) in
    let i := trunc idx in
    let frac := sub idx (of_Z i) in
    if i + 1 <? Z.of_nat (length v)
    then add (mul (nth (Z.to_nat i) v (of_Z 0)) (sub (of_Z 1) frac))
             (mul (nth (Z.to_nat (i + 1)) v (of_Z 0)) frac)
    else nth (Z.to_nat i) v (of_Z 0).
Proof.
  destruct v as [| front rest]; [contradiction | reflexivity].
Qed.

End Percentile.

(** ** [percentile] in binary64 *)

Lemma of_Z_hundred : B64.of_Z 100 = hundred.
Proof. reflexivity. Qed.

Lemma leb_refl_finite (x : double) : B64.finite x = true -> B64.leb x x = true.
Proof.
  destruct x as [s | s | | s m e]; cbn [B64.finite]; try discriminate; intros _.
  - reflexivity.
  - unfold B64.leb, SFleb, SFcompare. rewrite Z.compare_refl.
    change (Pos.compare_cont Eq m m) with (Pos.compare m m). rewrite Pos.compare_refl.
    now destruct s.
Qed.

(** The index that [percentile] computes never leaves the vector. *)
Lemma percentile_index_in_range (v : list double) (p : double) :
  v <> [] -> Z.of_nat (length v) <= 2 ^ 53 ->
  B64.finite p = true -> B64.leb p (B64.of_Z 0) = false -> B64.leb (B64.of_Z 100) p = false ->
  0 <= B64.trunc (B64.mul (B64.div p (B64.of_Z 100)) (B64.of_Z (Z.of_nat (length v) - 1)))
    <= Z.of_nat (length v) - 1.
Proof.
  intros Hv Hn Hp H0 H100.
  assert (Hlen : 1 <= Z.of_nat (length v)) by (destruct v; [contradiction | cbn [length]; lia]).
  rewrite of_Z_hundred in *.
  assert (Hq : at_most 1 (B64.div p hundred)).
  { destruct p as [[] | [] | | [] m e];
      try (cbn in Hp; discriminate Hp); try (cbv in H0; discriminate H0).
    now apply div_hundred_at_most. }
  unfold B64.trunc, B64.mul.
  destruct (Z.eq_dec (Z.of_nat (length v) - 1) 0) as [-> | Hne].
  - change (B64.of_Z 0) with (S754_zero false). rewrite mul_zero_r by exact Hq. lia.
  - apply trunc_at_most; [lia |].
    apply mul_at_most; [lia | exact Hq |]. apply of_Z_at_most. lia.
Qed.

Lemma nth_length_pred {T : Type} (l : list T) (d : T) :
  nth (length l - 1) l d = last l d.
Proof.
  induction l as [| x [| y l] IH]; [reflexivity | reflexivity |].
  replace (length (x :: y :: l) - 1)%nat with (S (length (y :: l) - 1)) by (cbn; lia).
  exact IH.
Qed.

Lemma ascending_last (v : list double) (d : double) :
  ascending v -> Forall (fun x => B64.finite x = true) v ->
  Forall (fun x => B64.leb x (last v d) = true) v.
Proof.
  unfold ascending. induction 1 as [| x l Hs IH Hx]; intros Hf; [constructor |].
  inversion Hf as [| ? ? Hfx Hfl]; subst. specialize (IH Hfl).
  destruct l as [| y l].
  - constructor; [now apply leb_refl_finite | constructor].
  - constructor; [| exact IH].
    rewrite Forall_forall in Hx. apply Hx.
    change (last (x :: y :: l) d) with (last (y :: l) d).
    destruct (exists_last (l := y :: l) ltac:(discriminate)) as (l' & z & Heq).
    rewrite Heq, last_last. apply in_or_app. right. now left.
Qed.

(** C2. On a non-empty vector in ascending order, for every p in
    [0,100], [percentile] returns the minimum when p = 0, the maximum
    when p = 100 and otherwise the interpolation
    sorted[i]*(1-frac) + sorted[i+1]*frac with index = (p/100)*(n-1),
    i = floor(index), frac = index - i, clamped to the last element when
    i+1 is out of range, each operation being the binary64 one.  On the
    samples 100, 200, 300, 400, 500 it yields p0 = 100.0, p50 = 300.0 and
    p100 = 500.0. *)
Theorem percentile_interpolates :
  (forall (sorted : list double) (p : double),
      sorted <> [] -> ascending sorted ->
      Forall (fun x => B64.finite x = true) sorted ->
      Z.of_nat (length sorted) <= 2 ^ 53 ->
      B64.finite p = true -> leb (of_Z 0) p = true -> leb p (of_Z 100) = true ->
      (leb p (of_Z 0) = true -> is_minimum sorted (percentile sorted p))
      /\ (leb (of_Z 100) p = true -> is_maximum sorted (percentile sorted p))
      /\ (leb p (of_Z 0) = false -> leb (of_Z 100) p = false ->
          percentile sorted p = interpolation sorted p))
  /\ percentile scenario_A (of_Z 0) = of_Z 100
  /\ percentile scenario_A (of_Z 50) = of_Z 300
  /\ percentile scenario_A (of_Z 100) = of_Z 500.
Proof.
  split; [| now vm_compute].
  intros sorted p Hne Hasc Hfin Hlen Hp Hp0 Hp100.
  assert (Hmin : is_minimum sorted (hd (of_Z 0) sorted)).
  { destruct sorted as [| front rest]; [contradiction |]. cbn [hd].
    split; [now left |]. constructor.
    - apply leb_refl_finite. now inversion Hfin.
    - unfold ascending in Hasc. now inversion Hasc. }
  assert (Hmax : is_maximum sorted (last sorted (of_Z 0))).
  { split; [| now apply ascending_last].
    destruct (exists_last Hne) as (l' & z & Heq). rewrite Heq, last_last.
    apply in_or_app. right. now left. }
  rewrite (percentile_nonempty sorted p Hne).
  split; [| split].
  - intros H0. now rewrite H0.
  - intros H100. destruct (leb p (of_Z 0)) eqn:H0.
    + (* p = 100 and p <= 0 cannot both hold *)
      exfalso. clear - H0 H100 Hp.
      destruct p as [[] | [] | | [] m e];
        try (cbn in Hp; discriminate Hp); try (cbv in H100; discriminate H100).
      cbv in H0. discriminate H0.
    + now rewrite H100.
  - intros H0 H100.
    pose proof (percentile_index_in_range sorted p Hne Hlen Hp H0 H100) as Hi.
    assert (Hn : 1 <= Z.of_nat (length sorted))
      by (destruct sorted; [contradiction | cbn [length]; lia]).
    unfold interpolation. rewrite H0, H100.
    rewrite u64_small by (change (2 ^ 64) with 18446744073709551616;
                          change (2 ^ 53) with 9007199254740992 in Hlen; lia).
    cbn [of_Z trunc mul div double_arith] in *. cbn zeta.
    set (i := B64.trunc _) in *.
    destruct (Z.ltb_spec (i + 1) (Z.of_nat (length sorted))) as [Hlt | Hge].
    + replace (Z.of_nat (length sorted) <=? i + 1) with false
        by (symmetry; apply Z.leb_gt; lia).
      replace (Z.to_nat (i + 1)) with (Z.to_nat i + 1)%nat by lia. reflexivity.
    + replace (Z.of_nat (length sorted) <=? i + 1) with true
        by (symmetry; apply Z.leb_le; lia).
      replace (Z.to_nat i) with (length sorted - 1)%nat by lia.
      apply nth_length_pred.
Qed.

Lemma percentile_interpolates_witness :
  percentile scenario_A (of_Z 25) = interpolation scenario_A (of_Z 25).
Proof.
  destruct percentile_interpolates as [H _].
  apply (H scenario_A (of_Z 25)).
  - discriminate.
  - unfold ascending, scenario_A. cbn [map]. repeat constructor.
  - unfold scenario_A. cbn [map]. repeat constructor.
  - cbn. lia.
  - reflexivity.
  - reflexivity.
  - reflexivity.
  - reflexivity.
  - reflexivity.
Defined.

(** ** [percentile] in exact arithmetic *)

Section ExactPercentile.

Local Open Scope Q_scope.

Lemma convex_bounds (a b t : Q) :
  a <= b -> 0 <= t -> t <= 1 -> a <= a * (1 - t) + b * t /\ a * (1 - t) + b * t <= b.
Proof. intros. split; nra. Qed.

Lemma nth_ascending (v : list Q) (i j : nat) :
  ascending v -> (i <= j)%nat -> (j < length v)%nat -> nth i v 0 <= nth j v 0.
Proof.
  unfold ascending. intros Hs. revert i j.
  induction Hs as [| x l Hs IH Hx]; intros i j Hij Hj; [cbn in Hj; lia |].
  destruct j as [| j].
  - replace i with 0%nat by lia. cbn. lra.
  - destruct i as [| i].
    + cbn [nth]. rewrite Forall_forall in Hx. apply Qle_bool_iff, Hx, nth_In.
      cbn in Hj. lia.
    + cbn [nth]. apply IH; cbn in Hj; lia.
Qed.

Lemma floor_frac (x : Q) : 0 <= x - inject_Z (Qfloor x) /\ x - inject_Z (Qfloor x) <= 1.
Proof.
  pose proof (Qfloor_le x). pose proof (Qlt_floor x).
  rewrite inject_Z_plus in H0. change (inject_Z 1) with 1 in H0. lra.
Qed.

Lemma interp_mono (v : list Q) (x y : Q) :
  ascending v -> v <> [] ->
  0 <= x -> x <= y -> y <= inject_Z (Z.of_nat (length v) - 1) ->
  interp v x <= interp v y.
Proof.
  intros Hs Hne Hx Hxy Hy. unfold interp.
  set (n := Z.of_nat (length v)) in *.
  assert (Hn : (1 <= n)%Z) by (subst n; destruct v; [contradiction | cbn [length]; lia]).
  pose proof (Qfloor_resp_le _ _ Hxy) as Hij.
  pose proof (Qfloor_resp_le _ _ Hx) as Hi0. change (Qfloor 0) with 0%Z in Hi0.
  pose proof (Qfloor_resp_le _ _ Hy) as Hjm. rewrite Qfloor_Z in Hjm.
  pose proof (floor_frac x) as [Hfx0 Hfx1]. pose proof (floor_frac y) as [Hfy0 Hfy1].
  set (i := Qfloor x) in *. set (j := Qfloor y) in *.
  destruct (Z.ltb_spec (j + 1) n) as [Hj | Hj].
  - replace (i + 1 <? n)%Z with true by (symmetry; apply Z.ltb_lt; lia).
    assert (Hvi : nth (Z.to_nat i) v 0 <= nth (Z.to_nat (i + 1)) v 0)
      by (apply nth_ascending; [assumption | lia | lia]).
    assert (Hvj : nth (Z.to_nat j) v 0 <= nth (Z.to_nat (j + 1)) v 0)
      by (apply nth_ascending; [assumption | lia | lia]).
    destruct (Z.eq_dec i j) as [Heq | Hneq].
    + rewrite <- Heq in *. nra.
    + assert (Hmid : nth (Z.to_nat (i + 1)) v 0 <= nth (Z.to_nat j) v 0)
        by (apply nth_ascending; [assumption | lia | lia]).
      pose proof (convex_bounds _ _ _ Hvi Hfx0 Hfx1) as [_ H1].
      pose proof (convex_bounds _ _ _ Hvj Hfy0 Hfy1) as [H2 _].
      lra.
  - assert (j = n - 1)%Z by lia.
    destruct (Z.ltb_spec (i + 1) n) as [Hi | Hi].
    + assert (Hvi : nth (Z.to_nat i) v 0 <= nth (Z.to_nat (i + 1)) v 0)
        by (apply nth_ascending; [assumption | lia | lia]).
      assert (Hmid : nth (Z.to_nat (i + 1)) v 0 <= nth (Z.to_nat j) v 0)
        by (apply nth_ascending; [assumption | lia | lia]).
      pose proof (convex_bounds _ _ _ Hvi Hfx0 Hfx1) as [_ H1]. lra.
    + replace i with j by lia. lra.
Qed.

Lemma percentile_Q_interp (v : list Q) (p : Q) :
  v <> [] -> (Z.of_nat (length v) <= 2 ^ 64)%Z ->
  0 <= p -> leb p (of_Z 0) = false -> leb (of_Z 100) p = false ->
  percentile v p = interp v (p / 100 * inject_Z (Z.of_nat (length v) - 1)).
Proof.
  intros Hne Hlen Hp H0 H100.
  assert (Hn : (1 <= Z.of_nat (length v))%Z) by (destruct v; [contradiction | cbn [length]; lia]).
  rewrite (percentile_nonempty v p Hne), H0, H100.
  rewrite u64_small by lia.
  cbn [of_Z trunc mul div add sub Q_arith]. cbn zeta. unfold interp.
  change (inject_Z 100) with 100. change (inject_Z 0) with 0. change (inject_Z 1) with 1.
  set (idx := p / 100 * inject_Z (Z.of_nat (length v) - 1)).
  assert (Hidx : 0 <= idx).
  { subst idx. apply Qmult_le_0_compat.
    - apply Qle_shift_div_l; lra.
    - change 0 with (inject_Z 0). rewrite <- Zle_Qle. lia. }
  apply Qle_bool_iff in Hidx. now rewrite Hidx.
Qed.

Lemma interp_zero (v : list Q) : v <> [] -> interp v 0 == nth 0 v 0.
Proof.
  intros Hne. unfold interp. change (Qfloor 0) with 0%Z.
  destruct (0 + 1 <? Z.of_nat (length v))%Z; cbn [Z.to_nat]; [| reflexivity].
  change (inject_Z 0) with 0. ring.
Qed.

Lemma interp_top (v : list Q) :
  v <> [] -> interp v (inject_Z (Z.of_nat (length v) - 1)) = last v 0.
Proof.
  intros Hne. unfold interp. rewrite Qfloor_Z.
  replace (Z.of_nat (length v) - 1 + 1 <? Z.of_nat (length v))%Z with false
    by (symmetry; apply Z.ltb_ge; lia).
  replace (Z.to_nat (Z.of_nat (length v) - 1)) with (length v - 1)%nat by lia.
  apply nth_length_pred.
Qed.

(** C6, amended.  Evaluated in exact arithmetic, [percentile] is monotonic
    in p over any non-empty vector in ascending order: for p1 < p2 in
    [0,100], percentile(p1) <= percentile(p2). *)
Theorem percentile_exact_monotonic (v : list Q) (p1 p2 : Q) :
  v <> [] -> ascending v -> (Z.of_nat (length v) <= 2 ^ 64)%Z ->
  leb (of_Z 0) p1 = true -> ltb p1 p2 = true -> leb p2 (of_Z 100) = true ->
  leb (percentile v p1) (percentile v p2) = true.
Proof.
  intros Hne Hs Hlen H1 H12 H2.
  cbn [leb ltb of_Z Q_arith] in H1, H12, H2 |- *.
  apply Qle_bool_iff in H1, H2. apply negb_true_iff in H12.
  assert (Hlt : p1 < p2).
  { apply Qnot_le_lt. intros Hc. apply Qle_bool_iff in Hc. congruence. }
  change (inject_Z 0) with 0 in H1. change (inject_Z 100) with 100 in H2.
  apply Qle_bool_iff.
  assert (Hn : (1 <= Z.of_nat (length v))%Z) by (destruct v; [contradiction | cbn [length]; lia]).
  set (m := inject_Z (Z.of_nat (length v) - 1)).
  assert (Hm : 0 <= m) by (subst m; change 0 with (inject_Z 0); rewrite <- Zle_Qle; lia).
  assert (Hidx : forall p, 0 <= p -> p <= 100 -> 0 <= p / 100 * m /\ p / 100 * m <= m).
  { intros p Hp0 Hp100.
    assert (0 <= p / 100) by (apply Qle_shift_div_l; lra).
    assert (p / 100 <= 1) by (apply Qle_shift_div_r; lra).
    split; nra. }
  assert (Hbot : forall p, 0 <= p -> p <= 100 -> nth 0 v 0 <= interp v (p / 100 * m)).
  { intros p Hp0 Hp100. rewrite <- (interp_zero v Hne).
    destruct (Hidx p Hp0 Hp100). apply interp_mono; auto; lra. }
  assert (Htop : forall p, 0 <= p -> p <= 100 -> interp v (p / 100 * m) <= last v 0).
  { intros p Hp0 Hp100. rewrite <- (interp_top v Hne).
    destruct (Hidx p Hp0 Hp100). apply interp_mono; auto; lra. }
  assert (Hhd : hd (of_Z 0) v = nth 0 v 0) by (destruct v; [contradiction | reflexivity]).
  assert (H20 : leb p2 (of_Z 0) = false).
  { cbn [leb of_Z Q_arith]. apply not_true_is_false. intros Hc. apply Qle_bool_iff in Hc.
    change (inject_Z 0) with 0 in Hc. lra. }
  assert (H1100 : leb (of_Z 100) p1 = false).
  { cbn [leb of_Z Q_arith]. apply not_true_is_false. intros Hc. apply Qle_bool_iff in Hc.
    change (inject_Z 100) with 100 in Hc. lra. }
  destruct (leb p1 (of_Z 0)) eqn:H10; destruct (leb (of_Z 100) p2) eqn:H2100.
  - rewrite !(percentile_nonempty _ _ Hne), H10, H20, H2100, Hhd.
    change (@of_Z Q Q_arith 0) with 0.
    rewrite <- (nth_length_pred v 0). apply nth_ascending; [assumption | lia | lia].
  - rewrite (percentile_Q_interp v p2 Hne Hlen ltac:(lra) H20 H2100).
    rewrite (percentile_nonempty _ _ Hne), H10, Hhd. apply Hbot; lra.
  - rewrite (percentile_Q_interp v p1 Hne Hlen H1 H10 H1100).
    rewrite (percentile_nonempty v p2 Hne), H20, H2100.
    change (@of_Z Q Q_arith 0) with 0. apply Htop; lra.
  - rewrite (percentile_Q_interp v p1 Hne Hlen H1 H10 H1100).
    rewrite (percentile_Q_interp v p2 Hne Hlen ltac:(lra) H20 H2100).
    destruct (Hidx p1 H1 ltac:(lra)), (Hidx p2 ltac:(lra) H2).
    apply interp_mono; auto.
    assert (0 <= p2 / 100 - p1 / 100).
    { setoid_replace (p2 / 100 - p1 / 100) with ((p2 - p1) / 100) by (field).
      apply Qle_shift_div_l; lra. }
    fold m. nra.
Qed.

End ExactPercentile.

Lemma percentile_exact_monotonic_witness :
  leb (percentile [10 # 1; 20 # 1]%Q (5 # 1)%Q) (percentile [10 # 1; 20 # 1]%Q (6 # 1)%Q) = true.
Proof.
  apply percentile_exact_monotonic.
  - discriminate.
  - unfold ascending. repeat constructor.
  - cbn. lia.
  - reflexivity.
  - reflexivity.
  - reflexivity.
Defined.

(** C6 as stated fails in binary64: over the samples 10.0, 10.0 the
    program computes percentile(5) = 10.0 and
    percentile(6) = 9.999999999999998. *)
Lemma percentile_binary64_not_monotonic :
  ascending two_tens
  /\ leb (of_Z 0) (B64.of_Z 5) = true
  /\ ltb (B64.of_Z 5) (B64.of_Z 6) = true
  /\ leb (B64.of_Z 6) (of_Z 100) = true
  /\ percentile two_tens (B64.of_Z 5) = S754_finite false 5629499534213120 (-49)
  /\ percentile two_tens (B64.of_Z 6) = S754_finite false 5629499534213119 (-49)
  /\ leb (percentile two_tens (B64.of_Z 5)) (percentile two_tens (B64.of_Z 6)) = false.
Proof.
  split; [unfold ascending, two_tens; cbn [map]; repeat constructor |].
  repeat split; vm_compute; reflexivity.
Qed.

(** ** Runs of the loop *)

Section Run.

Context {D : Type} {A : Arith D}.

Implicit Types (st : state D) (xs : list (input_event * timespec)).

Lemma reach_trans quiet xs ys st1 st2 st3 :
  reach quiet xs st1 st2 -> reach quiet ys st2 st3 -> reach quiet (xs ++ ys) st1 st3.
Proof.
  intros H12 H23. induction H23 as [st | ys st st' x _ IH | ys st st' m _ IH].
  - now rewrite app_nil_r.
  - rewrite app_assoc. constructor. now apply IH.
  - constructor. now apply IH.
Qed.

Lemma reach_fold quiet xs st :
  reach quiet xs st (fold_left (process_event quiet) xs st).
Proof.
  induction xs as [| x xs IH] using rev_ind.
  - constructor.
  - rewrite fold_left_app. cbn [fold_left]. now constructor.
Qed.

(** The loop only ever takes records that the trace delivers, in
    order. *)
Lemma run_loop_reach limit quiet env st :
  exists xs rest,
    delivered env = xs ++ rest
    /\ reach quiet xs st (state_of (run_loop limit quiet env st)).
Proof.
  revert st. induction env as [| it env IH]; intros st.
  - exists [], []. split; [reflexivity |]. cbn [run_loop].
    destruct (loop_cond false limit st); constructor.
  - cbn [run_loop]. destruct (loop_cond (g_stop it) limit st).
    2:{ exists [], (delivered (it :: env)). split; [reflexivity | constructor]. }
    destruct it as [stop [| | | [] [| | evs]]]; cbn [polled delivered].
    + apply IH.
    + exists [], (delivered env). split; [reflexivity |]. cbn [state_of]. repeat constructor.
    + destruct (IH (say (if quiet then [] else [MIdle]) st)) as (xs & rest & Hd & Hr).
      exists xs, rest. split; [exact Hd |].
      change xs with ([] ++ xs). eapply reach_trans; [| exact Hr]. repeat constructor.
    + apply IH.
    + exists [], (delivered env). split; [reflexivity |]. cbn [state_of]. repeat constructor.
    + destruct (IH (fold_left (process_event quiet) (firstn BUF_EV evs) st))
        as (xs & rest & Hd & Hr).
      exists (firstn BUF_EV evs ++ xs), rest. split; [now rewrite Hd, app_assoc |].
      eapply reach_trans; [apply reach_fold | exact Hr].
    + apply IH.
    + apply IH.
    + apply IH.
Qed.

Lemma reach_latencies quiet xs st st' :
  reach quiet xs st st' ->
  latencies_us st' = latencies_us st ++ map sample_us (filter timed xs).
Proof.
  induction 1 as [st | xs st st' x _ IH | xs st st' m _ IH].
  - now rewrite app_nil_r.
  - rewrite filter_app, map_app, app_assoc, <- IH. cbn [filter].
    destruct (timed x) eqn:Hx.
    + now destruct (process_event_timed quiet st' x Hx) as [-> _].
    + destruct (process_event_untimed quiet st' x Hx) as [-> _]. now rewrite app_nil_r.
  - exact IH.
Qed.

Lemma u64_idem (a : Z) : u64 (u64 a) = u64 a.
Proof. unfold u64. now rewrite Z.mod_mod by lia. Qed.

Lemma u64_succ (a : Z) : u64 (u64 a + 1) = u64 (a + 1).
Proof. unfold u64. now rewrite Z.add_mod_idemp_l by lia. Qed.

Lemma reach_total quiet xs st st' :
  reach quiet xs st st' ->
  u64 (total_events st') = u64 (total_events st + Z.of_nat (length xs)).
Proof.
  induction 1 as [st | xs st st' x _ IH | xs st st' m _ IH].
  - now rewrite Z.add_0_r.
  - rewrite process_event_total, length_app, Nat2Z.inj_add. cbn [length].
    rewrite u64_idem, <- u64_succ, IH, u64_succ. f_equal. lia.
  - exact IH.
Qed.

Lemma reach_measured quiet xs st st' :
  reach quiet xs st st' ->
  u64 (measured_events st')
  = u64 (measured_events st + Z.of_nat (length (filter timed xs))).
Proof.
  induction 1 as [st | xs st st' x _ IH | xs st st' m _ IH].
  - now rewrite Z.add_0_r.
  - rewrite filter_app, length_app, Nat2Z.inj_add. cbn [filter].
    destruct (timed x) eqn:Hx.
    + destruct (process_event_timed quiet st' x Hx) as [_ ->]. cbn [length].
      rewrite u64_idem, <- u64_succ, IH, u64_succ. f_equal. lia.
    + destruct (process_event_untimed quiet st' x Hx) as (_ & -> & _).
      cbn [length]. rewrite IH. f_equal. lia.
  - exact IH.
Qed.

End Run.

(** ** The sampling guard *)

Lemma has_sign_nonneg (x : double) : has_sign false x -> B64.nonneg x = true.
Proof. destruct x as [s | s | | s m e]; cbn; try tauto; now intros ->. Qed.

(** A delta that is not negative gives a sample that is not negative. *)
Lemma sample_sign (z : Z) :
  0 <= z -> has_sign false (B64.div (B64.of_Z z) (B64.of_Z 1000)).
Proof.
  intros Hz. apply div_sign.
  - now apply of_Z_sign.
  - reflexivity.
  - exact I.
Qed.

Lemma sample_nonneg (z : Z) :
  0 <= z -> B64.nonneg (B64.div (B64.of_Z z) (B64.of_Z 1000)) = true.
Proof. intros Hz. now apply has_sign_nonneg, sample_sign. Qed.

Lemma timed_sign (xs : list (input_event * timespec)) :
  Forall (has_sign false) (map (sample_us (D := double)) (filter timed xs)).
Proof.
  apply Forall_map, Forall_forall. intros x [_ Hx]%filter_In.
  apply andb_true_iff in Hx as [_ Hx]. apply Z.leb_le in Hx.
  now apply sample_sign.
Qed.

Lemma timed_nonneg (xs : list (input_event * timespec)) :
  Forall (fun s => B64.nonneg s = true) (map (sample_us (D := double)) (filter timed xs)).
Proof.
  eapply Forall_impl; [| apply timed_sign]. intros s. apply has_sign_nonneg.
Qed.

(** C3. A Measurable record always increments the total-seen counter.
    When the receipt time is at or after the device timestamp, the sample
    (now_ns - device_timestamp_ns)/1000.0, which is not negative, is
    appended and the measured counter incremented; when the receipt time
    is before the device timestamp, nothing is appended, the measured
    counter keeps its value and nothing is printed.  Hence, whatever the
    run, the accumulator never holds a negative sample. *)
Theorem negative_delta_discarded :
  (forall (quiet : bool) (st : state double) (ev : input_event) (now : timespec),
      measure ev = true ->
      let now_ns := ts_to_ns now in
      let evt_ns := tv_to_ns (ev_time ev) in
      let st' := process_event quiet st (ev, now) in
      total_events st' = u64 (total_events st + 1)
      /\ (evt_ns <= now_ns ->
          latencies_us st' = latencies_us st ++ [div (of_Z (now_ns - evt_ns)) (of_Z 1000)]
          /\ measured_events st' = u64 (measured_events st + 1)
          /\ B64.nonneg (div (of_Z (now_ns - evt_ns)) (of_Z 1000)) = true)
      /\ (now_ns < evt_ns ->
          latencies_us st' = latencies_us st
          /\ measured_events st' = measured_events st
          /\ output st' = output st))
  /\ (forall (limit : Z) (quiet : bool) (env : list iteration) (out : list (msg double)),
        Forall (fun s => B64.nonneg s = true)
               (latencies_us (state_of (run_loop limit quiet env (init_state out))))).
Proof.
  split.
  - intros quiet st ev now Hm now_ns evt_ns st'.
    split; [apply process_event_total | split].
    + intros Hle.
      assert (Ht : timed (ev, now) = true) by (apply timed_spec; now split).
      destruct (process_event_timed quiet st (ev, now) Ht) as [Hl Hc].
      repeat split; [exact Hl | exact Hc |].
      apply sample_nonneg. lia.
    + intros Hlt.
      assert (Ht : timed (ev, now) = false).
      { apply not_true_is_false. intros [_ Hc]%timed_spec. cbn [fst snd] in Hc.
        subst now_ns evt_ns. lia. }
      exact (process_event_untimed quiet st (ev, now) Ht).
  - intros limit quiet env out.
    destruct (run_loop_reach limit quiet env (init_state out)) as (xs & rest & _ & Hr).
    rewrite (reach_latencies _ _ _ _ Hr). cbn [init_state latencies_us app].
    apply timed_nonneg.
Qed.

Lemma negative_delta_discarded_witness :
  latencies_us (process_event true (init_state []) (key_press, clock_after))
  = [B64.div (B64.of_Z 10000) (B64.of_Z 1000)]
  /\ latencies_us (process_event true (init_state []) (key_press, clock_before)) = @nil double.
Proof.
  destruct negative_delta_discarded as [H _].
  split.
  - destruct (H true (init_state []) key_press clock_after eq_refl) as (_ & Happ & _).
    destruct Happ as (Hl & _); [vm_compute; discriminate |]. exact Hl.
  - destruct (H true (init_state []) key_press clock_before eq_refl) as (_ & _ & Hdis).
    destruct Hdis as (Hl & _); [reflexivity |]. exact Hl.
Defined.

(** ** Counters *)

Section Counters.

Context {D : Type} {A : Arith D}.

Lemma reach_range quiet xs (st st' : state D) :
  reach quiet xs st st' ->
  0 <= total_events st < 2 ^ 64 /\ 0 <= measured_events st < 2 ^ 64 ->
  0 <= total_events st' < 2 ^ 64 /\ 0 <= measured_events st' < 2 ^ 64.
Proof.
  induction 1 as [st | xs st st' x _ IH | xs st st' m _ IH]; intros H0; auto.
  specialize (IH H0). split.
  - rewrite process_event_total. apply u64_range.
  - destruct (timed x) eqn:Hx.
    + destruct (process_event_timed quiet st' x Hx) as [_ ->]. apply u64_range.
    + now destruct (process_event_untimed quiet st' x Hx) as (_ & -> & _).
Qed.

(** After the records [xs], from the start of the program: the counters
    are the number of records and the number of samples. *)
Lemma reach_counters quiet out xs (st : state D) :
  reach quiet xs (init_state out) st -> Z.of_nat (length xs) < 2 ^ 64 ->
  total_events st = Z.of_nat (length xs)
  /\ measured_events st = Z.of_nat (length (latencies_us st))
  /\ (length (latencies_us st) <= length xs)%nat.
Proof.
  intros Hr Hlen.
  destruct (reach_range _ _ _ _ Hr) as [Ht Hm]; [cbn; lia |].
  pose proof (reach_total _ _ _ _ Hr) as Htot.
  pose proof (reach_measured _ _ _ _ Hr) as Hmeas.
  pose proof (reach_latencies _ _ _ _ Hr) as Hlat.
  cbn [init_state total_events measured_events latencies_us app] in *.
  assert (Hf : (length (filter timed xs) <= length xs)%nat) by apply filter_length_le.
  rewrite Hlat, length_map.
  rewrite (u64_small (total_events st)) in Htot by lia.
  rewrite (u64_small (measured_events st)) in Hmeas by lia.
  rewrite u64_small in Htot by lia. rewrite u64_small in Hmeas by lia.
  repeat split; [lia | lia | exact Hf].
Qed.

End Counters.

(** C10. At every point of a run that has processed fewer than 2^64
    records, the measured-events counter is the number of samples in the
    accumulator and the total-seen counter, the number of records
    processed, is at least the measured-events counter; from any point
    to any later one the two counters do not decrease and the
    accumulator is only extended.  Every state in which the loop is left
    or is waiting is such a point. *)
Theorem counters_track_accumulator :
  (forall (quiet : bool) (out : list (msg double)) xs ys (st st' : state double),
      reach quiet xs (init_state out) st -> reach quiet ys st st' ->
      Z.of_nat (length (xs ++ ys)) < 2 ^ 64 ->
      measured_events st' = Z.of_nat (length (latencies_us st'))
      /\ total_events st' = Z.of_nat (length (xs ++ ys))
      /\ measured_events st' <= total_events st'
      /\ measured_events st <= measured_events st'
      /\ total_events st <= total_events st'
      /\ exists more, latencies_us st' = latencies_us st ++ more)
  /\ (forall (limit : Z) (quiet : bool) (env : list iteration) (out : list (msg double)),
        exists xs, reach quiet xs (init_state out)
                     (state_of (run_loop limit quiet env (init_state out)))).
Proof.
  split.
  - intros quiet out xs ys st st' Hxs Hys Hlen.
    pose proof (reach_trans _ _ _ _ _ _ Hxs Hys) as Hall.
    rewrite length_app, Nat2Z.inj_add in Hlen.
    destruct (reach_counters quiet out xs st Hxs ltac:(lia)) as (Ht & Hm & Hle).
    destruct (reach_counters quiet out (xs ++ ys) st' Hall) as (Ht' & Hm' & Hle');
      [rewrite length_app, Nat2Z.inj_add; lia |].
    pose proof (reach_latencies _ _ _ _ Hys) as Hlat.
    rewrite length_app in *.
    assert (Hgrow : (length (latencies_us st) <= length (latencies_us st'))%nat)
      by (rewrite Hlat, length_app; lia).
    repeat split; try lia.
    eexists. exact Hlat.
  - intros limit quiet env out.
    destruct (run_loop_reach limit quiet env (init_state out)) as (xs & _ & _ & Hr).
    now exists xs.
Qed.

Lemma counters_track_accumulator_witness :
  let st : state double := process_event true (init_state []) (key_press, clock_after) in
  let st' : state double := process_event true st (syn_report, clock_after) in
  measured_events st' = 1 /\ total_events st' = 2.
Proof.
  intros st st'.
  destruct counters_track_accumulator as [H _].
  destruct (H true [] [(key_press, clock_after)] [(syn_report, clock_after)] st st')
    as (Hm & Ht & _).
  - apply (reach_event true [] (init_state []) (init_state [])). constructor.
  - apply (reach_event true [] st st). constructor.
  - cbn. lia.
  - split; [exact Hm | exact Ht].
Defined.

(** ** The summary *)

Section Summary.

Context {D : Type} {A : Arith D}.

Lemma insert_perm (x : D) (l : list D) : Permutation (insert x l) (x :: l).
Proof.
  induction l as [| y l IH]; cbn [insert]; [reflexivity |].
  destruct (ltb y x); [| reflexivity].
  rewrite IH. apply perm_swap.
Qed.

Lemma sort_perm (l : list D) : Permutation (sort l) l.
Proof.
  induction l as [| x l IH]; cbn; [reflexivity |].
  fold (sort l). now rewrite insert_perm, IH.
Qed.

Lemma sort_length (l : list D) : length (sort l) = length l.
Proof. apply Permutation_length, sort_perm. Qed.

(** What [print_stats] prints over a non-empty accumulator. *)
Lemma print_stats_nonempty (l : list D) (final : bool) :
  l <> [] ->
  print_stats l final
  = [MStats final (length l) (average (sort l))
            (percentile (sort l) (of_Z 50)) (percentile (sort l) (of_Z 95))
            (percentile (sort l) (of_Z 99))].
Proof.
  destruct l as [| x l]; [contradiction |]. intros _.
  unfold print_stats. now rewrite sort_length.
Qed.

End Summary.

Section ExactMean.

Local Open Scope Q_scope.

Lemma fold_left_Qplus_acc (l : list Q) (a : Q) :
  fold_left Qplus l a == a + fold_right Qplus 0 l.
Proof.
  revert a. induction l as [| x l IH]; intros a; cbn [fold_left fold_right]; [ring |].
  rewrite IH. ring.
Qed.

Lemma fold_right_Qplus_perm (l l' : list Q) :
  Permutation l l' -> fold_right Qplus 0 l == fold_right Qplus 0 l'.
Proof.
  induction 1 as [| x l l' _ IH | x y l | l l' l'' _ IH1 _ IH2]; cbn [fold_right].
  - reflexivity.
  - now rewrite IH.
  - ring.
  - now rewrite IH1.
Qed.

(** In exact arithmetic the average that [print_stats] takes over the
    sorted copy is the arithmetic mean of the accumulator. *)
Lemma average_sort_exact (l : list Q) : average (sort l) == mean l.
Proof.
  unfold average, mean. cbn [add div of_Z Q_arith].
  rewrite sort_length, fold_left_Qplus_acc, (fold_right_Qplus_perm _ _ (sort_perm l)).
  change (inject_Z 0) with 0.
  apply Qdiv_comp; [ring | reflexivity].
Qed.

End ExactMean.

(** ** [std::sort] *)

Section StdSort.

Context {D : Type} {A : Arith D}.
Variable P : D -> Prop.
Hypothesis ltb_asym : forall x y, P x -> P y -> ltb x y = true -> ltb y x = false.
Hypothesis ltb_trans :
  forall x y z, P x -> P y -> P z -> ltb x y = true -> ltb y z = true -> ltb x z = true.
Hypothesis ltb_connex :
  forall x y, P x -> P y -> ltb x y = false -> ltb y x = false -> x = y.

Lemma not_ltb_trans (x y z : D) :
  P x -> P y -> P z -> ltb z y = false -> ltb y x = false -> ltb z x = false.
Proof.
  intros Hx Hy Hz Hzy Hyx.
  destruct (ltb y z) eqn:Hyz.
  - apply not_true_is_false. intros Hzx.
    rewrite (ltb_trans y z x Hy Hz Hx Hyz Hzx) in Hyx. discriminate.
  - now rewrite <- (ltb_connex y z Hy Hz Hyz Hzy).
Qed.

Lemma insert_sorted (x : D) (l : list D) :
  P x -> Forall P l -> std_sorted l -> std_sorted (insert x l).
Proof.
  intros Hx Hl Hs. induction Hs as [| y l Hs IH Hy]; cbn [insert].
  - repeat constructor.
  - inversion Hl as [| ? ? HPy HPl]; subst.
    destruct (ltb y x) eqn:Hyx.
    + constructor; [now apply IH |].
      apply (Permutation_Forall (Permutation_sym (insert_perm x l))).
      constructor; [now apply ltb_asym | exact Hy].
    + constructor; [now constructor |].
      constructor; [exact Hyx |].
      rewrite Forall_forall in Hy, HPl |- *. intros z Hz.
      apply not_ltb_trans with y; auto.
Qed.

Lemma sort_sorted (l : list D) : Forall P l -> std_sorted (sort l).
Proof.
  induction 1 as [| x l Hx Hl IH]; [constructor |].
  cbn [sort fold_right]. fold (sort l). apply insert_sorted; [exact Hx | | exact IH].
  now apply (Permutation_Forall (Permutation_sym (sort_perm l))).
Qed.

Lemma sorted_unique (l1 l2 : list D) :
  Forall P l1 -> std_sorted l1 -> std_sorted l2 -> Permutation l1 l2 -> l1 = l2.
Proof.
  intros HP H1. revert l2. induction H1 as [| x l1 H1 IH Hx]; intros l2 H2 Hperm.
  - now apply Permutation_nil in Hperm.
  - destruct H2 as [| y l2 H2 Hy]; [now apply Permutation_sym, Permutation_nil in Hperm |].
    inversion HP as [| ? ? HPx HPl]; subst.
    assert (HP2 : Forall P (y :: l2)) by now apply (Permutation_Forall Hperm).
    inversion HP2 as [| ? ? HPy HPl2]; subst.
    assert (Hxy : x = y).
    { assert (Hin1 : In y (x :: l1))
        by (apply (Permutation_in _ (Permutation_sym Hperm)); now left).
      assert (Hin2 : In x (y :: l2)) by (apply (Permutation_in _ Hperm); now left).
      destruct Hin1 as [-> | Hin1]; [reflexivity |].
      destruct Hin2 as [-> | Hin2]; [reflexivity |].
      rewrite Forall_forall in Hx, Hy.
      apply ltb_connex; auto. }
    subst y. f_equal. apply IH; auto. now apply Permutation_cons_inv with x.
Qed.

(** Whatever algorithm sorts them, numbers that [<] orders totally end
    up in one order only: that of [sort]. *)
Lemma sort_unique (l l' : list D) :
  Forall P l -> Permutation l' l -> std_sorted l' -> l' = sort l.
Proof.
  intros HP Hperm Hs. apply sorted_unique.
  - now apply (Permutation_Forall (Permutation_sym Hperm)).
  - exact Hs.
  - now apply sort_sorted.
  - now rewrite sort_perm.
Qed.

End StdSort.

Lemma ltb_key (x y : double) :
  has_sign false x -> has_sign false y ->
  (B64.ltb x y = true <-> key_lt (key x) (key y)).
Proof.
  intros Hx Hy.
  destruct x as [sx | sx | | sx mx ex]; cbn [has_sign] in Hx; try contradiction; subst sx;
  destruct y as [sy | sy | | sy my ey]; cbn [has_sign] in Hy; try contradiction; subst sy;
  unfold B64.ltb, SFltb, SFcompare; cbn [key key_lt].
  all: try (split; [intros H; discriminate H | intros H; exfalso; lia]).
  all: try (split; [intros _; lia | reflexivity]).
  change (Pos.compare_cont Eq mx my) with (Pos.compare mx my).
  destruct (Z.compare_spec ex ey) as [He | He | He].
  - destruct (Pos.compare_spec mx my) as [Hm | Hm | Hm].
    + split; [intros H; discriminate H | intros H; exfalso; subst; lia].
    + split; [intros _; lia | reflexivity].
    + split; [intros H; discriminate H | intros H; exfalso; lia].
  - split; [intros _; lia | reflexivity].
  - split; [intros H; discriminate H | intros H; exfalso; lia].
Qed.

Lemma key_inj (x y : double) :
  has_sign false x -> has_sign false y -> key x = key y -> x = y.
Proof.
  intros Hx Hy.
  destruct x as [sx | sx | | sx mx ex]; cbn [has_sign] in Hx; try contradiction; subst sx;
  destruct y as [sy | sy | | sy my ey]; cbn [has_sign] in Hy; try contradiction; subst sy;
  cbn [key]; intros H; try discriminate H; try reflexivity.
  now injection H as -> ->.
Qed.

Lemma ltb_false_key (x y : double) :
  has_sign false x -> has_sign false y ->
  B64.ltb x y = false -> ~ key_lt (key x) (key y).
Proof.
  intros Hx Hy H Hk. apply (ltb_key x y Hx Hy) in Hk. congruence.
Qed.

(** On numbers that are not NaN and have a clear sign bit, as all
    samples are, [<] is a strict total order: [std::sort] can only return
    what [sort] returns. *)
Lemma std_sort_unique (l l' : list double) :
  Forall (has_sign false) l -> Permutation l' l -> std_sorted l' -> l' = sort l.
Proof.
  apply sort_unique.
  - intros x y Hx Hy H. apply not_true_is_false. intros H'.
    apply (ltb_key x y Hx Hy) in H. apply (ltb_key y x Hy Hx) in H'.
    destruct (key x) as [[c1 e1] m1], (key y) as [[c2 e2] m2]. cbn in H, H'. lia.
  - intros x y z Hx Hy Hz H1 H2.
    apply (ltb_key x y Hx Hy) in H1. apply (ltb_key y z Hy Hz) in H2.
    apply (ltb_key x z Hx Hz).
    destruct (key x) as [[c1 e1] m1], (key y) as [[c2 e2] m2], (key z) as [[c3 e3] m3].
    cbn in *. lia.
  - intros x y Hx Hy H1 H2.
    apply (ltb_false_key x y Hx Hy) in H1. apply (ltb_false_key y x Hy Hx) in H2.
    apply key_inj; auto.
    destruct (key x) as [[c1 e1] m1], (key y) as [[c2 e2] m2].
    cbn in H1, H2. f_equal; [f_equal |]; lia.
Qed.

(** The accumulator only ever holds numbers that are not NaN and have a
    clear sign bit. *)
Lemma run_samples_sign limit quiet env (out : list (msg double)) :
  Forall (has_sign false)
         (latencies_us (state_of (run_loop limit quiet env (init_state out)))).
Proof.
  destruct (run_loop_reach limit quiet env (init_state out)) as (xs & rest & _ & Hr).
  rewrite (reach_latencies _ _ _ _ Hr). cbn [init_state latencies_us app].
  apply timed_sign.
Qed.

(** The sorted copy that a summary is computed from does not depend on
    the sorting algorithm. *)
Lemma summary_order_determined limit quiet env (out : list (msg double)) (v : list double) :
  let lat := latencies_us (state_of (run_loop limit quiet env (init_state out))) in
  Permutation v lat -> std_sorted v -> v = sort lat.
Proof.
  intros lat. apply std_sort_unique. apply run_samples_sign.
Qed.

(** C4. Whatever records have been processed, the accumulator holds the
    samples of exactly those that are Measurable with a delta that is
    not negative, so a summary counts them, averages them (the sum, taken
    over the sorted copy, divided by their number) and takes its
    percentiles over them: a negative delta has no part in it.  In exact
    arithmetic the average over the sorted copy is the arithmetic mean of
    the accumulator.  The samples 10, 10, 10 give average = 10.0 and
    p50 = p95 = p99 = 10.0. *)
Theorem average_over_timed_deltas :
  (forall (quiet final : bool) (out : list (msg double)) xs (st : state double),
      reach quiet xs (init_state out) st ->
      let samples := map sample_us (filter timed xs) in
      latencies_us st = samples
      /\ print_stats (latencies_us st) final
         = match samples with
           | [] => []
           | _ :: _ =>
               [MStats final (length (filter timed xs))
                       (div (fold_left add (sort samples) (of_Z 0))
                            (of_Z (Z.of_nat (length (filter timed xs)))))
                       (percentile (sort samples) (of_Z 50))
                       (percentile (sort samples) (of_Z 95))
                       (percentile (sort samples) (of_Z 99))]
           end)
  /\ (forall l : list Q, (average (sort l) == mean l)%Q)
  /\ print_stats scenario_B true
     = [MStats true 3 (of_Z 10) (of_Z 10) (of_Z 10) (of_Z 10)].
Proof.
  split; [| split; [exact average_sort_exact | now vm_compute]].
  intros quiet final out xs st Hr samples.
  pose proof (reach_latencies _ _ _ _ Hr) as Hlat.
  cbn [init_state latencies_us app] in Hlat. fold samples in Hlat.
  split; [exact Hlat |]. rewrite Hlat.
  destruct samples as [| s samples'] eqn:Hs; [reflexivity |].
  rewrite print_stats_nonempty by discriminate.
  unfold average. rewrite sort_length.
  replace (length (filter timed xs)) with (length (s :: samples'))
    by (rewrite <- Hs; subst samples; apply length_map).
  reflexivity.
Qed.

Lemma average_over_timed_deltas_witness :
  latencies_us
    (process_event true
       (process_event true (init_state []) (key_press, clock_before))
       (key_press, clock_after))
  = [B64.div (B64.of_Z 10000) (B64.of_Z 1000)].
Proof.
  destruct average_over_timed_deltas as [H _].
  destruct (H true true [] [(key_press, clock_before); (key_press, clock_after)]
              (process_event true
                 (process_event true (init_state []) (key_press, clock_before))
                 (key_press, clock_after))) as [Hl _].
  - apply (reach_fold true [(key_press, clock_before); (key_press, clock_after)]
             (init_state [])).
  - rewrite Hl. reflexivity.
Defined.

(** C9. A call of [print_stats] leaves the accumulator (and the
    counters) as they were, and a second call over the unchanged
    accumulator reports the same count, average, p50, p95 and p99,
    whatever the framing asked for. *)
Theorem print_stats_idempotent :
  forall (st : state double) (first second : bool),
    let st1 := say (print_stats (latencies_us st) first) st in
    latencies_us st1 = latencies_us st
    /\ total_events st1 = total_events st
    /\ measured_events st1 = measured_events st
    /\ map stats_of (print_stats (latencies_us st1) second)
       = map stats_of (print_stats (latencies_us st) first)
    /\ latencies_us (say (print_stats (latencies_us st1) second) st1) = latencies_us st.
Proof.
  intros st first second st1. cbn [st1 say latencies_us total_events measured_events].
  repeat split; try reflexivity.
  destruct (latencies_us st) as [| x l]; reflexivity.
Qed.

(** ** What the loop prints *)

Section Output.

Context {D : Type} {A : Arith D}.

Implicit Types (st : state D) (out : list (msg D)).

Lemma final_summaries_app out1 out2 :
  final_summaries (out1 ++ out2) = final_summaries out1 ++ final_summaries out2.
Proof.
  induction out1 as [| m out1 IH]; [reflexivity |].
  destruct m as [| | | | | | | | | | [] | |]; cbn; now rewrite ?IH.
Qed.

Lemma summaries_app out1 out2 :
  summaries (out1 ++ out2) = summaries out1 ++ summaries out2.
Proof.
  induction out1 as [| m out1 IH]; [reflexivity |].
  destruct m; cbn; now rewrite ?IH.
Qed.

Lemma loop_msg_mono (len len' : nat) (m : msg D) :
  (len <= len')%nat -> loop_msg len m -> loop_msg len' m.
Proof. destruct m; cbn; try tauto. intros; intuition lia. Qed.

Lemma loop_msgs_mono (len len' : nat) out :
  (len <= len')%nat -> Forall (loop_msg len) out -> Forall (loop_msg len') out.
Proof. intros Hle. apply Forall_impl. intros m. now apply loop_msg_mono. Qed.

Lemma loop_msgs_final (len : nat) out :
  Forall (loop_msg len) out -> final_summaries out = [].
Proof.
  induction 1 as [| m out Hm _ IH]; [reflexivity |].
  destruct m as [| | | | | | | | | | [] | |]; cbn in *; try exact IH.
  destruct Hm; discriminate.
Qed.


Lemma loop_msgs_no_notice (len : nat) out :
  Forall (loop_msg len) out -> ~ In MNoData out.
Proof.
  intros H Hin. rewrite Forall_forall in H. exact (H _ Hin).
Qed.

Lemma print_stats_rolling_ok (l : list D) :
  Forall (loop_msg (length l)) (print_stats l false).
Proof.
  destruct l as [| x l]; [constructor |].
  rewrite print_stats_nonempty by discriminate.
  constructor; [| constructor]. cbn. split; [reflexivity | lia].
Qed.

Lemma process_event_output_ok quiet st x :
  Forall (loop_msg (length (latencies_us st))) (output st) ->
  Forall (loop_msg (length (latencies_us (process_event quiet st x))))
         (output (process_event quiet st x)).
Proof.
  intros H. destruct (timed x) eqn:Hx.
  - pose proof Hx as [Hm Hle]%timed_spec.
    destruct (process_event_timed quiet st x Hx) as [Hl _].
    rewrite Hl. clear Hl. destruct x as [ev now]. cbn [fst snd] in *.
    unfold process_event. rewrite Hm. cbn [negb].
    apply Z.leb_le in Hle. rewrite Hle. cbn [output].
    rewrite length_app. cbn [length].
    apply Forall_app; split; [| apply Forall_app; split].
    + apply loop_msgs_mono with (length (latencies_us st)); [lia | exact H].
    + destruct quiet; repeat constructor.
    + destruct (negb quiet && _); [| constructor].
      eapply loop_msgs_mono; [| apply print_stats_rolling_ok].
      rewrite length_app. cbn [length]. lia.
  - destruct (process_event_untimed quiet st x Hx) as (-> & _ & ->). exact H.
Qed.

Lemma fold_output_ok quiet xs st :
  Forall (loop_msg (length (latencies_us st))) (output st) ->
  Forall (loop_msg (length (latencies_us (fold_left (process_event quiet) xs st))))
         (output (fold_left (process_event quiet) xs st)).
Proof.
  revert st. induction xs as [| x xs IH]; intros st H; [exact H |].
  cbn [fold_left]. apply IH. now apply process_event_output_ok.
Qed.

Lemma say_output_ok (ms : list (msg D)) st :
  Forall (loop_msg (length (latencies_us st))) ms ->
  Forall (loop_msg (length (latencies_us st))) (output st) ->
  Forall (loop_msg (length (latencies_us (say ms st)))) (output (say ms st)).
Proof. intros Hm H. cbn. apply Forall_app. now split. Qed.

Lemma run_loop_output_ok limit quiet env st :
  Forall (loop_msg (length (latencies_us st))) (output st) ->
  Forall (loop_msg (length (latencies_us (state_of (run_loop limit quiet env st)))))
         (output (state_of (run_loop limit quiet env st))).
Proof.
  revert st. induction env as [| it env IH]; intros st H.
  - cbn [run_loop]. now destruct (loop_cond false limit st).
  - cbn [run_loop]. destruct (loop_cond (g_stop it) limit st); [| exact H].
    destruct it as [stop [| | | [] [| | evs]]]; cbn [polled]; try (now apply IH).
    + apply say_output_ok; [repeat constructor | exact H].
    + apply IH. apply say_output_ok; [destruct quiet; repeat constructor | exact H].
    + apply say_output_ok; [repeat constructor | exact H].
    + apply IH. now apply fold_output_ok.
Qed.

Lemma startup_ok quiet dev os : Forall (loop_msg (D := D) 0) (startup quiet dev os).
Proof.
  unfold startup. apply Forall_app. split.
  - destruct (clock_ok os || quiet); repeat constructor.
  - destruct quiet; repeat constructor.
Qed.

(** The shape of [main]: what it returns when the loop is left. *)
Lemma main_exit_0 (argv : list string) (os : system) out :
  main argv os = Exit 0 out ->
  exists prog dev args limit quiet st,
    argv = prog :: dev :: args
    /\ parse_args args 0 false = Parsed limit quiet
    /\ open_ok os = true
    /\ run_loop limit quiet (answers os) (init_state (startup quiet dev os)) = Done st
    /\ out = output st ++ epilogue st.
Proof.
  unfold main. destruct argv as [| prog [| dev args]]; try discriminate.
  destruct (parse_args args 0 false) as [limit quiet | a | e] eqn:Hp; try discriminate.
  destruct (open_ok os) eqn:Ho; cbn [negb]; [| discriminate].
  destruct (run_loop limit quiet (answers os) _) as [st | st] eqn:Hr; [| discriminate].
  intros [= <-]. now exists prog, dev, args, limit, quiet, st.
Qed.

Lemma epilogue_empty st :
  latencies_us st = [] ->
  epilogue st = [MNoData; MTotals (total_events st) (measured_events st)].
Proof. unfold epilogue. now intros ->. Qed.

Lemma epilogue_nonempty st :
  latencies_us st <> [] ->
  epilogue st
  = [MStats true (length (latencies_us st)) (average (sort (latencies_us st)))
       (percentile (sort (latencies_us st)) (of_Z 50))
       (percentile (sort (latencies_us st)) (of_Z 95))
       (percentile (sort (latencies_us st)) (of_Z 99));
     MTotals (total_events st) (measured_events st)].
Proof.
  intros Hne. unfold epilogue.
  destruct (latencies_us st) as [| x l]; [contradiction |].
  now rewrite print_stats_nonempty by discriminate.
Qed.

End Output.

(** ** The end of a run *)




(** ** Exit codes *)

Section ExitCodes.

Context {D : Type} {A : Arith D}.

Lemma run_loop_stop limit quiet (it : iteration) env (st : state D) :
  g_stop it = true -> run_loop limit quiet (it :: env) st = Done st.
Proof. intros H. cbn [run_loop]. unfold loop_cond. now rewrite H. Qed.

Lemma main_exit (argv : list string) (os : system) (code : Z) (out : list (msg D)) :
  main argv os = Exit code out ->
  (code = 1 /\ exists m, out = [m] /\ to_stderr m = true) \/ code = 0.
Proof.
  unfold main. destruct argv as [| prog [| dev args]].
  - intros [= <- <-]. left. split; [reflexivity |]. now eexists.
  - intros [= <- <-]. left. split; [reflexivity |]. now eexists.
  - destruct (parse_args args 0 false) as [limit quiet | a | e]; try discriminate.
    + destruct (open_ok os); cbn [negb].
      * destruct (run_loop _ _ _ _); [| discriminate]. intros [= <- <-]. now right.
      * intros [= <- <-]. left. split; [reflexivity |]. now eexists.
    + intros [= <- <-]. left. split; [reflexivity |]. now eexists.
Qed.

End ExitCodes.

(** C8, amended.  Without a device path the program prints the usage
    message on standard error and returns 1.  With an argument that it
    does not recognise (a trailing [--limit] with no value included) it
    prints an "Unknown arg" message on standard error and returns 1.
    When the device cannot be opened it prints the error and returns 1.
    Whenever the loop is left -- on a stop request as on anything else --
    it returns 0; and it never returns anything but 0 or 1.  (What
    becomes of a [--limit] whose value is not a number is not stated.) *)
Theorem exit_codes :
  (forall (argv : list string) (os : system),
      (length argv < 2)%nat ->
      exists prog, main (D := double) argv os = Exit 1 [MUsage prog]
                   /\ to_stderr (MUsage (D := double) prog) = true)
  /\ (forall (prog dev : string) (args : list string) (os : system) (a : string),
        parse_args args 0 false = Unknown a ->
        main (D := double) (prog :: dev :: args) os = Exit 1 [MUnknownArg a]
        /\ to_stderr (MUnknownArg (D := double) a) = true)
  /\ (forall (prog dev : string) (args : list string) (os : system) limit quiet,
        parse_args args 0 false = Parsed limit quiet ->
        open_ok os = false ->
        main (D := double) (prog :: dev :: args) os = Exit 1 [MOpenError])
  /\ (forall (prog dev : string) (args : list string) (os : system) limit quiet
             (st : state double),
        parse_args args 0 false = Parsed limit quiet ->
        open_ok os = true ->
        run_loop limit quiet (answers os) (init_state (startup quiet dev os)) = Done st ->
        main (prog :: dev :: args) os = Exit 0 (output st ++ epilogue st))
  /\ (forall limit quiet (it : iteration) (env : list iteration) (st : state double),
        g_stop it = true -> run_loop limit quiet (it :: env) st = Done st)
  /\ (forall (argv : list string) (os : system) (code : Z) (out : list (msg double)),
        main argv os = Exit code out -> code = 0 \/ code = 1).
Proof.
  repeat apply conj.
  - intros [| prog [| dev args]] os Hlen; cbn [length] in Hlen; try lia.
    + now exists ""%string.
    + now exists prog.
  - intros prog dev args os a Hp. cbn [main]. now rewrite Hp.
  - intros prog dev args os limit quiet Hp Ho. cbn [main]. now rewrite Hp, Ho.
  - intros prog dev args os limit quiet st Hp Ho Hr. cbn [main].
    now rewrite Hp, Ho, Hr.
  - intros limit quiet it env st. apply run_loop_stop.
  - intros argv os code out H. destruct (main_exit argv os code out H) as [[-> _] | ->]; auto.
Qed.

Lemma exit_codes_witness :
  main (D := double) ["input_latency"%string] two_presses = Exit 1 [MUsage "input_latency"]
  /\ main argv_limit_1 two_presses = Exit 0 two_presses_output.
Proof.
  destruct exit_codes as (Husage & _ & _ & Hdone & _).
  split.
  - destruct (Husage ["input_latency"%string] two_presses) as (prog & Hm & _);
      [cbn; lia |].
    rewrite Hm. f_equal. f_equal. cbn in Hm. now injection Hm as <-.
  - apply (Hdone "input_latency"%string "/dev/input/event3"%string
                 ["--limit"; "1"; "--quiet"]%string two_presses 1 true
                 {| latencies_us := [B64.of_Z 10; B64.of_Z 10]; total_events := 2;
                    measured_events := 2; output := [] |});
      reflexivity.
Defined.

(** C8 as stated fails: an argument that is not recognised gets an
    "Unknown arg" message, not the usage message. *)
Lemma unknown_arg_no_usage :
  main (D := double) argv_verbose two_presses = Exit 1 [MUnknownArg "--verbose"]
  /\ existsb is_usage [MUnknownArg (D := double) "--verbose"] = false.
Proof. split; reflexivity. Qed.

(** A [--limit] followed by something that is not a number: [std::stoi]
    throws, nothing catches, and [main] does not return at all. *)
Lemma limit_not_a_number :
  main (D := double) argv_limit_abc two_presses = Terminate invalid_argument.
Proof. reflexivity. Qed.

(** ** The sample limit *)

Section Limit.

Context {D : Type} {A : Arith D}.

Implicit Types (st : state D).

Lemma size_as_int (n : nat) :
  Z.of_nat n < 2 ^ 31 -> to_int (u64 (Z.of_nat n)) = Z.of_nat n.
Proof. intros H. rewrite u64_small by lia. apply to_int_small. lia. Qed.

Lemma loop_cond_below stop limit st :
  0 < limit -> Z.of_nat (length (latencies_us st)) < 2 ^ 31 ->
  loop_cond stop limit st = true -> Z.of_nat (length (latencies_us st)) < limit.
Proof.
  intros Hl Hn. unfold loop_cond. rewrite size_as_int by exact Hn.
  replace (limit =? 0) with false by (symmetry; apply Z.eqb_neq; lia).
  cbn [orb]. intros [_ H]%andb_true_iff. now apply Z.ltb_lt.
Qed.

Lemma loop_cond_reached stop limit st :
  0 < limit -> limit <= Z.of_nat (length (latencies_us st)) < 2 ^ 31 ->
  loop_cond stop limit st = false.
Proof.
  intros Hl Hn. unfold loop_cond. rewrite size_as_int by lia.
  replace (limit =? 0) with false by (symmetry; apply Z.eqb_neq; lia).
  replace (Z.of_nat (length (latencies_us st)) <? limit) with false
    by (symmetry; apply Z.ltb_ge; lia).
  now rewrite andb_false_r.
Qed.

Lemma loop_cond_left limit st :
  0 < limit -> Z.of_nat (length (latencies_us st)) < 2 ^ 31 ->
  loop_cond false limit st = false -> limit <= Z.of_nat (length (latencies_us st)).
Proof.
  intros Hl Hn. unfold loop_cond. rewrite size_as_int by exact Hn.
  replace (limit =? 0) with false by (symmetry; apply Z.eqb_neq; lia).
  cbn [negb andb orb]. intros H. now apply Z.ltb_ge.
Qed.

(** A batch adds at most as many samples as the buffer holds records. *)
Lemma batch_length quiet (evs : list (input_event * timespec)) st :
  (length (latencies_us (fold_left (process_event quiet) (firstn BUF_EV evs) st))
   <= length (latencies_us st) + BUF_EV)%nat.
Proof.
  rewrite fold_process_latencies, length_app, length_map.
  pose proof (filter_length_le timed (firstn BUF_EV evs)).
  pose proof (firstn_le_length BUF_EV evs). lia.
Qed.

Lemma run_loop_length_bound limit quiet env st :
  0 < limit -> limit + 63 < 2 ^ 31 ->
  Z.of_nat (length (latencies_us st)) <= limit + 63 ->
  Z.of_nat (length (latencies_us (state_of (run_loop limit quiet env st)))) <= limit + 63.
Proof.
  intros Hl Hb. revert st. induction env as [| it env IH]; intros st Hn.
  - cbn [run_loop]. now destruct (loop_cond false limit st).
  - cbn [run_loop]. destruct (loop_cond (g_stop it) limit st) eqn:Hc; [| exact Hn].
    apply loop_cond_below in Hc; [| exact Hl | lia].
    destruct it as [stop [| | | [] [| | evs]]]; cbn [polled state_of say latencies_us];
      try (now apply IH); try exact Hn.
    apply IH. pose proof (batch_length quiet evs st). unfold BUF_EV in *. lia.
Qed.

End Limit.

(** C1, amended.  With a limit configured that leaves room for one
    more batch in an [int] (0 < limit <= 2^31 - 64), the loop starts no
    new iteration once the accumulator holds at least [limit] samples:
    from any state that a run reaches with that many, the loop is left at
    once, whatever is answered next.  The limit is looked at between
    batches only, and a batch is at most 64 records: when [main] returns
    after the loop the accumulator holds at most limit + 63 samples; if
    the loop was left because of the limit it holds at least [limit]
    samples and the output has exactly one final summary, over all of
    them; in no case is there more than one final summary. *)
Theorem limit_checked_between_batches :
  forall (limit : Z) (quiet : bool),
    0 < limit <= 2 ^ 31 - 64 ->
    (forall (env env' : list iteration) (out : list (msg double)),
        let st := state_of (run_loop limit quiet env (init_state out)) in
        limit <= Z.of_nat (length (latencies_us st)) ->
        run_loop limit quiet env' st = Done st)
    /\ (forall (prog dev : string) (args : list string) (os : system)
               (out : list (msg double)),
          parse_args args 0 false = Parsed limit quiet ->
          main (prog :: dev :: args) os = Exit 0 out ->
          exists st : state double,
            run_loop limit quiet (answers os) (init_state (startup quiet dev os)) = Done st
            /\ out = output st ++ epilogue st
            /\ Z.of_nat (length (latencies_us st)) <= limit + 63
            /\ (loop_cond false limit st = false ->
                limit <= Z.of_nat (length (latencies_us st))
                /\ final_summaries out = [length (latencies_us st)])
            /\ (length (final_summaries out) <= 1)%nat).
Proof.
  intros limit quiet [Hl Hb']. assert (Hb : limit + 63 < 2 ^ 31) by lia. split.
  - intros env env' out st Hn.
    pose proof (run_loop_length_bound (D := double) limit quiet env (init_state out)
                  Hl Hb ltac:(cbn; lia)) as Hlen.
    fold st in Hlen.
    destruct env' as [| it env']; cbn [run_loop]; rewrite loop_cond_reached;
      try reflexivity; lia.
  - intros prog dev args os out Hp Hmain.
    destruct (main_exit_0 _ os out Hmain)
      as (prog' & dev' & args' & limit' & quiet' & st & [= <- <- <-] & Hp' & _ & Hrun & ->).
    rewrite Hp in Hp'. injection Hp' as <- <-.
    exists st. split; [exact Hrun | split; [reflexivity |]].
    pose proof (run_loop_length_bound (D := double) limit quiet (answers os)
                  (init_state (startup quiet dev os)) Hl Hb ltac:(cbn; lia)) as Hlen.
    pose proof (run_loop_output_ok (D := double) limit quiet (answers os)
                  (init_state (startup quiet dev os)) (startup_ok quiet dev os)) as Hok.
    rewrite Hrun in Hlen, Hok. cbn [state_of] in Hlen, Hok.
    rewrite final_summaries_app, (loop_msgs_final _ _ Hok). cbn [app].
    split; [exact Hlen | split].
    + intros Hc. apply loop_cond_left in Hc; [| exact Hl | lia].
      split; [exact Hc |].
      assert (Hne : latencies_us st <> []).
      { intros Hnil. rewrite Hnil in Hc. cbn in Hc. lia. }
      now rewrite (epilogue_nonempty st Hne).
    + destruct (latencies_us st) as [| x l] eqn:Hlat.
      * rewrite epilogue_empty by exact Hlat. cbn. lia.
      * rewrite epilogue_nonempty by (rewrite Hlat; discriminate). cbn. lia.
Qed.

Lemma limit_checked_between_batches_witness :
  run_loop 1 true (answers two_presses)
    (state_of (run_loop 1 true (answers two_presses) (init_state (D := double) [])))
  = Done (state_of (run_loop 1 true (answers two_presses) (init_state [])))
  /\ exists st : state double,
       run_loop 1 true (answers two_presses)
         (init_state (startup true "/dev/input/event3" two_presses))
       = Done st
       /\ Z.of_nat (length (latencies_us st)) <= 1 + 63.
Proof.
  destruct (limit_checked_between_batches 1 true ltac:(lia)) as [H1 H].
  split.
  - apply (H1 (answers two_presses) (answers two_presses) []). cbn. lia.
  - destruct (H "input_latency"%string "/dev/input/event3"%string
                ["--limit"; "1"; "--quiet"]%string two_presses two_presses_output
                eq_refl eq_refl) as (st & Hrun & _ & Hlen & _).
    exists st. split; [exact Hrun | exact Hlen].
Defined.

(** Past that bound the size no longer fits the [int] it is cast to: an
    accumulator of 2^31 samples compares as negative, and the loop goes
    on although the limit 2^31 - 1 has been passed. *)
Lemma limit_near_int_max (st : state double) :
  Z.of_nat (length (latencies_us st)) = 2 ^ 31 ->
  loop_cond false (2 ^ 31 - 1) st = true.
Proof. intros H. unfold loop_cond. now rewrite H. Qed.

(** C1 as stated fails: with [--limit 1], a read that returns two
    timed records leaves two samples in the accumulator, and the final
    summary is over two samples. *)
Lemma limit_overshoot :
  parse_args ["--limit"; "1"; "--quiet"]%string 0 false = Parsed 1 true
  /\ main argv_limit_1 two_presses = Exit 0 two_presses_output
  /\ final_summaries two_presses_output = [2%nat].
Proof. repeat split. Qed.

(** * Further properties of the program *)

(** ** Timestamps *)

Lemma ts_to_ns_exact (ts : timespec) :
  normal_ts ts -> ts_to_ns ts = ts_sec ts * 1000000000 + ts_nsec ts.
Proof.
  intros [Hs Hn]. unfold ts_to_ns.
  rewrite (u64_small (ts_sec ts)), (u64_small (ts_nsec ts)) by lia.
  apply u64_small. lia.
Qed.

Lemma tv_to_ns_exact (tv : timeval) :
  normal_tv tv -> tv_to_ns tv = tv_sec tv * 1000000000 + tv_usec tv * 1000.
Proof.
  intros [Hs Hn]. unfold tv_to_ns.
  rewrite (u64_small (tv_sec tv)), (u64_small (tv_usec tv)) by lia.
  apply u64_small. lia.
Qed.

(** X1. On times of day that are normalised and fit 64 bits of
    nanoseconds, [ts_to_ns] is the exact count of nanoseconds and keeps
    the order of time: an earlier reading gives a smaller count. *)
Theorem ts_to_ns_order :
  forall (a b : timespec),
    normal_ts a -> normal_ts b ->
    ts_to_ns a = ts_sec a * 1000000000 + ts_nsec a
    /\ (ts_to_ns a < ts_to_ns b
        <-> ts_sec a < ts_sec b \/ (ts_sec a = ts_sec b /\ ts_nsec a < ts_nsec b)).
Proof.
  intros a b Ha Hb.
  rewrite (ts_to_ns_exact a Ha), (ts_to_ns_exact b Hb).
  destruct Ha as [Has Han], Hb as [Hbs Hbn]. split; [reflexivity | lia].
Qed.

Lemma ts_to_ns_order_witness :
  ts_to_ns clock_before < ts_to_ns clock_after.
Proof.
  apply (ts_to_ns_order clock_before clock_after); unfold normal_ts; cbn; lia.
Defined.

Lemma u64_add_r (a b : Z) : u64 (a + u64 b) = u64 (a + b).
Proof. unfold u64. now rewrite Z.add_mod_idemp_r by lia. Qed.

Lemma u64_mul_l (a b : Z) : u64 (u64 a * b) = u64 (a * b).
Proof. unfold u64. now rewrite Z.mul_mod_idemp_l by lia. Qed.

(** X2. A device timestamp and a clock reading of the same instant give
    the same count of nanoseconds, whatever the values (wrapped or not):
    a record processed at the very instant of its timestamp has a delta
    of 0 and, if Measurable, is timed. *)
Theorem same_instant_delta_zero :
  forall (ev : input_event),
    tv_to_ns (ev_time ev) = ts_to_ns (tv_as_ts (ev_time ev))
    /\ delta_ns (ev, tv_as_ts (ev_time ev)) = 0
    /\ timed (ev, tv_as_ts (ev_time ev)) = measure ev.
Proof.
  intros ev.
  assert (H : tv_to_ns (ev_time ev) = ts_to_ns (tv_as_ts (ev_time ev))).
  { unfold tv_to_ns, ts_to_ns, tv_as_ts. cbn [ts_sec ts_nsec].
    rewrite u64_add_r. rewrite <- (u64_add_r _ (u64 (tv_usec (ev_time ev)) * 1000)).
    now rewrite u64_mul_l, u64_add_r. }
  split; [exact H |].
  assert (Hd : delta_ns (ev, tv_as_ts (ev_time ev)) = 0)
    by (unfold delta_ns; cbn [fst snd]; lia).
  split; [exact Hd |]. unfold timed. cbn [fst]. rewrite Hd. cbn. apply andb_true_r.
Qed.

(** X3. For a normalised timestamp and clock reading, the delta is the
    true difference of the two times in nanoseconds; so a Measurable
    record is timed exactly when the clock reading is not before the
    timestamp. *)
Theorem delta_is_time_difference :
  forall (ev : input_event) (now : timespec),
    normal_tv (ev_time ev) -> normal_ts now ->
    delta_ns (ev, now)
    = (ts_sec now * 1000000000 + ts_nsec now)
      - (tv_sec (ev_time ev) * 1000000000 + tv_usec (ev_time ev) * 1000)
    /\ (timed (ev, now) = true
        <-> measure ev = true
            /\ tv_sec (ev_time ev) * 1000000000 + tv_usec (ev_time ev) * 1000
               <= ts_sec now * 1000000000 + ts_nsec now).
Proof.
  intros ev now Hev Hnow.
  assert (Hd : delta_ns (ev, now)
               = (ts_sec now * 1000000000 + ts_nsec now)
                 - (tv_sec (ev_time ev) * 1000000000 + tv_usec (ev_time ev) * 1000)).
  { unfold delta_ns. cbn [fst snd]. now rewrite ts_to_ns_exact, tv_to_ns_exact. }
  split; [exact Hd |].
  unfold timed. cbn [fst]. rewrite Hd, andb_true_iff, Z.leb_le. intuition lia.
Qed.

Lemma delta_is_time_difference_witness :
  delta_ns (key_press, clock_after) = 10000 /\ delta_ns (key_press, clock_before) = -1000000000.
Proof.
  split.
  - destruct (delta_is_time_difference key_press clock_after) as [H _];
      [unfold normal_tv; cbn; lia | unfold normal_ts; cbn; lia |].
    rewrite H. reflexivity.
  - destruct (delta_is_time_difference key_press clock_before) as [H _];
      [unfold normal_tv; cbn; lia | unfold normal_ts; cbn; lia |].
    rewrite H. reflexivity.
Defined.

(** ** Labels and per-event lines *)

(** X4. [ev_type_to_str] gives "UNK" exactly to the type codes outside
    the twelve it names, and names those twelve apart: two codes with the
    same label other than "UNK" are the same code. *)
Theorem ev_type_to_str_labels :
  forall (a b : Z),
    (ev_type_to_str a = "UNK"%string <-> ~ In a named_types)
    /\ (ev_type_to_str a = ev_type_to_str b ->
        a = b \/ ev_type_to_str a = "UNK"%string).
Proof.
  intros a b. split.
  - unfold ev_type_to_str, named_types,
      EV_SYN, EV_KEY, EV_REL, EV_ABS, EV_MSC, EV_SW, EV_LED, EV_SND, EV_REP, EV_FF, EV_PWR,
      EV_FF_STATUS.
    cbn [In].
    repeat (match goal with
            | |- context [?x =? ?c] => destruct (Z.eqb_spec x c)
            end);
      (split; [intros H; try discriminate H; lia | intros H; try reflexivity; exfalso; lia]).
  - unfold ev_type_to_str,
      EV_SYN, EV_KEY, EV_REL, EV_ABS, EV_MSC, EV_SW, EV_LED, EV_SND, EV_REP, EV_FF, EV_PWR,
      EV_FF_STATUS.
    repeat (match goal with
            | |- context [a =? ?c] => destruct (Z.eqb_spec a c)
            end);
      try (intros _; right; reflexivity);
      repeat (match goal with
              | |- context [b =? ?c] => destruct (Z.eqb_spec b c)
              end);
      intros H; try discriminate H; left; lia.
Qed.

Section EventLines.

Context {D : Type} {A : Arith D}.

Implicit Types (st : state D) (x : input_event * timespec).

Lemma event_lines_app (out1 out2 : list (msg D)) :
  event_lines (out1 ++ out2) = event_lines out1 ++ event_lines out2.
Proof.
  induction out1 as [| m out1 IH]; [reflexivity |].
  destruct m; cbn; now rewrite ?IH.
Qed.

Lemma event_lines_print_stats (l : list D) (final : bool) :
  event_lines (print_stats l final) = [].
Proof. destruct l; reflexivity. Qed.

Lemma process_event_lines quiet st x :
  event_lines (output (process_event quiet st x))
  = event_lines (output st)
    ++ (if negb quiet && timed x then [line_of x] else []).
Proof.
  destruct (timed x) eqn:Hx.
  - pose proof Hx as [Hm Hle]%timed_spec.
    destruct x as [ev now]. cbn [fst snd] in *.
    unfold process_event. rewrite Hm. cbn [negb].
    apply Z.leb_le in Hle. rewrite Hle. cbn [output].
    rewrite !event_lines_app.
    replace (event_lines (if negb quiet && _ then _ else _)) with (@nil (string * Z * Z * D))
      by (destruct (negb quiet && _); [now rewrite event_lines_print_stats | reflexivity]).
    rewrite app_nil_r. f_equal.
    destruct quiet; cbn [negb andb event_lines]; [reflexivity |].
    unfold line_of, sample_us. cbn [fst snd].
    rewrite <- (delta_ns_u64 (ev, now)); [reflexivity |].
    unfold delta_ns. cbn [fst snd]. apply Z.leb_le in Hle. lia.
  - destruct (process_event_untimed quiet st x Hx) as (_ & _ & ->).
    rewrite andb_false_r. now rewrite app_nil_r.
Qed.

Lemma fold_event_lines quiet (xs : list (input_event * timespec)) st :
  event_lines (output (fold_left (process_event quiet) xs st))
  = event_lines (output st)
    ++ (if quiet then [] else map line_of (filter timed xs)).
Proof.
  revert st. induction xs as [| x xs IH]; intros st; cbn [fold_left filter].
  - destruct quiet; now rewrite app_nil_r.
  - rewrite IH, process_event_lines, <- app_assoc. f_equal.
    destruct quiet; cbn [negb andb]; [reflexivity |].
    destruct (timed x); reflexivity.
Qed.

End EventLines.

(** X5. Unless [--quiet] is given, a batch prints one line per timed
    record, in arrival order, with the record's label, code, value and
    sample; the label is always one of KEY, ABS, REL, MSC.  With
    [--quiet] it prints no such line. *)
Theorem one_line_per_timed_record :
  forall (quiet : bool) (xs : list (input_event * timespec)) (st : state double),
    event_lines (output (fold_left (process_event quiet) xs st))
    = event_lines (output st) ++ (if quiet then [] else map line_of (filter timed xs))
    /\ Forall (fun x => In (fst (fst (fst (line_of (D := double) x))))
                           ["KEY"; "ABS"; "REL"; "MSC"]%string)
              (filter timed xs).
Proof.
  intros quiet xs st. split; [apply fold_event_lines |].
  apply Forall_forall. intros x [_ Hx]%filter_In.
  apply timed_spec in Hx as [Hm _]. apply measure_spec in Hm.
  unfold line_of. cbn [fst].
  destruct Hm as [-> | [-> | [-> | ->]]]; cbn; tauto.
Qed.

(** ** What [--quiet] changes *)

Section Quiet.

Context {D : Type} {A : Arith D}.

Implicit Types (st : state D) (x : input_event * timespec).

Lemma process_event_accum q1 q2 st1 st2 x :
  accum st1 = accum st2 -> accum (process_event q1 st1 x) = accum (process_event q2 st2 x).
Proof.
  unfold accum. intros [= Hl Ht Hm]. destruct x as [ev now]. unfold process_event.
  rewrite Hl, Ht, Hm.
  destruct (measure ev); cbn [negb]; [| reflexivity].
  destruct (tv_to_ns (ev_time ev) <=? ts_to_ns now); reflexivity.
Qed.

Lemma fold_accum q1 q2 (xs : list (input_event * timespec)) st1 st2 :
  accum st1 = accum st2 ->
  accum (fold_left (process_event q1) xs st1) = accum (fold_left (process_event q2) xs st2).
Proof.
  revert st1 st2. induction xs as [| x xs IH]; intros st1 st2 H; [exact H |].
  cbn [fold_left]. apply IH. now apply process_event_accum.
Qed.

Lemma loop_cond_accum stop limit st1 st2 :
  accum st1 = accum st2 -> loop_cond stop limit st1 = loop_cond stop limit st2.
Proof. unfold accum, loop_cond. now intros [= -> _ _]. Qed.

Lemma say_accum (m : list (msg D)) st : accum (say m st) = accum st.
Proof. reflexivity. Qed.

Lemma run_loop_accum limit q1 q2 env st1 st2 :
  accum st1 = accum st2 ->
  is_done (run_loop limit q1 env st1) = is_done (run_loop limit q2 env st2)
  /\ accum (state_of (run_loop limit q1 env st1))
     = accum (state_of (run_loop limit q2 env st2)).
Proof.
  revert st1 st2. induction env as [| it env IH]; intros st1 st2 H; cbn [run_loop].
  - rewrite (loop_cond_accum _ _ _ _ H).
    destruct (loop_cond false limit st2); now split.
  - rewrite (loop_cond_accum _ _ _ _ H).
    destruct (loop_cond (g_stop it) limit st2); [| now split].
    destruct (polled it) as [| | | [] [| | evs]]; try (now apply IH); try (now split).
    apply IH. now apply fold_accum.
Qed.

Lemma process_event_quiet_output st x : output (process_event true st x) = output st.
Proof.
  destruct x as [ev now]. unfold process_event.
  destruct (measure ev); cbn [negb]; [| reflexivity].
  destruct (tv_to_ns (ev_time ev) <=? ts_to_ns now); cbn [output andb]; [| reflexivity].
  now rewrite !app_nil_r.
Qed.

Lemma fold_quiet_output (xs : list (input_event * timespec)) st :
  output (fold_left (process_event true) xs st) = output st.
Proof.
  revert st. induction xs as [| x xs IH]; intros st; [reflexivity |].
  cbn [fold_left]. now rewrite IH, process_event_quiet_output.
Qed.

Lemma run_loop_quiet_output limit env st :
  let st' := state_of (run_loop limit true env st) in
  output st' = output st
  \/ output st' = output st ++ [MPollError]
  \/ output st' = output st ++ [MReadError].
Proof.
  revert st. induction env as [| it env IH]; intros st; cbn [run_loop].
  - destruct (loop_cond false limit st); now left.
  - destruct (loop_cond (g_stop it) limit st); [| now left].
    destruct (polled it) as [| | | [] [| | evs]]; try apply IH.
    + right. now left.
    + cbn zeta. specialize (IH (say [] st)). cbn zeta in IH.
      replace (output (say [] st)) with (output st) in IH by (cbn; now rewrite app_nil_r).
      exact IH.
    + right. now right.
    + specialize (IH (fold_left (process_event true) (firstn BUF_EV evs) st)).
      cbn zeta in IH. now rewrite fold_quiet_output in IH.
Qed.

End Quiet.

(** X6. [--quiet] changes what is printed and nothing else: on the same
    answers the loop is left (or still waiting) at the same point, with
    the same samples in the accumulator and the same two counters,
    whether quiet or not. *)
Theorem quiet_changes_output_only :
  forall (limit : Z) (env : list iteration) (st : state double),
    is_done (run_loop limit true env st) = is_done (run_loop limit false env st)
    /\ accum (state_of (run_loop limit true env st))
       = accum (state_of (run_loop limit false env st)).
Proof. intros limit env st. now apply run_loop_accum. Qed.

(** X7. With [--quiet], all that [main] prints when it returns after the
    loop is the message of a fatal [poll] or [read] error, if there was
    one, then the final summary or the "no measurable events" notice,
    then the totals. *)
Theorem quiet_prints_summary_only :
  forall (prog dev : string) (args : list string) (os : system) (limit : Z)
         (out : list (msg double)),
    parse_args args 0 false = Parsed limit true ->
    main (prog :: dev :: args) os = Exit 0 out ->
    exists st : state double,
      run_loop limit true (answers os) (init_state []) = Done st
      /\ (out = epilogue st
          \/ out = MPollError :: epilogue st
          \/ out = MReadError :: epilogue st).
Proof.
  intros prog dev args os limit out Hp Hmain.
  destruct (main_exit_0 _ os out Hmain)
    as (prog' & dev' & args' & limit' & quiet' & st & [= <- <- <-] & Hp' & _ & Hrun & ->).
  rewrite Hp in Hp'. injection Hp' as <- <-.
  assert (Hs : startup (D := double) true dev os = [])
    by (unfold startup; now rewrite orb_true_r).
  rewrite Hs in Hrun. exists st. split; [exact Hrun |].
  pose proof (run_loop_quiet_output (D := double) limit (answers os) (init_state [])) as Ho.
  cbn zeta in Ho. rewrite Hrun in Ho. cbn [state_of init_state output app] in Ho.
  destruct Ho as [-> | [-> | ->]]; auto.
Qed.

Lemma quiet_prints_summary_only_witness :
  exists st : state double,
    run_loop 1 true (answers two_presses) (init_state []) = Done st
    /\ (two_presses_output = epilogue st
        \/ two_presses_output = MPollError :: epilogue st
        \/ two_presses_output = MReadError :: epilogue st).
Proof.
  exact (quiet_prints_summary_only "input_latency"%string "/dev/input/event3"%string
           ["--limit"; "1"; "--quiet"]%string two_presses 1 two_presses_output
           eq_refl eq_refl).
Defined.

(** ** The loop along its trace *)

Section Trace.

Context {D : Type} {A : Arith D}.

Implicit Types (st : state D).

(** Once the limit part of the condition fails, the loop is left
    whatever comes. *)
Lemma run_loop_left limit quiet env st :
  loop_cond false limit st = false -> run_loop limit quiet env st = Done st.
Proof.
  intros H. destruct env as [| it env]; cbn [run_loop]; [now rewrite H |].
  unfold loop_cond in *. cbn [negb andb] in H. rewrite H. now rewrite andb_false_r.
Qed.

Lemma run_loop_app limit quiet pre post st :
  run_loop limit quiet (pre ++ post) st
  = match run_loop limit quiet pre st with
    | Done st1 => Done st1
    | Waiting st1 => run_loop limit quiet post st1
    end.
Proof.
  revert st. induction pre as [| it pre IH]; intros st; cbn [app run_loop].
  - destruct (loop_cond false limit st) eqn:Hc; [reflexivity |].
    now apply run_loop_left.
  - destruct (loop_cond (g_stop it) limit st); [| reflexivity].
    destruct (polled it) as [| | | [] [| | evs]]; try apply IH; reflexivity.
Qed.

Lemma delivered_cons_batch stop evs env :
  delivered ({| g_stop := stop; polled := PollReady true (ReadOk evs) |} :: env)
  = firstn BUF_EV evs ++ delivered env.
Proof. reflexivity. Qed.

Lemma run_loop_whole_batches limit quiet env st :
  exists k : nat,
    (k <= length env)%nat
    /\ accum (state_of (run_loop limit quiet env st))
       = accum (fold_left (process_event quiet) (delivered (firstn k env)) st).
Proof.
  revert st. induction env as [| it env IH]; intros st.
  - exists 0%nat. split; [reflexivity |]. cbn [run_loop].
    now destruct (loop_cond false limit st).
  - cbn [run_loop]. destruct (loop_cond (g_stop it) limit st).
    2:{ exists 0%nat. split; [cbn; lia | reflexivity]. }
    destruct it as [stop [| | | [] [| | evs]]]; cbn [polled].
    + destruct (IH st) as (k & Hk & H). exists (S k). split; [cbn; lia | exact H].
    + exists 0%nat. split; [cbn; lia | reflexivity].
    + destruct (IH (say (if quiet then [] else [MIdle]) st)) as (k & Hk & H).
      exists (S k). split; [cbn; lia |]. rewrite H. cbn [firstn delivered polled].
      apply fold_accum, say_accum.
    + destruct (IH st) as (k & Hk & H). exists (S k). split; [cbn; lia | exact H].
    + exists 0%nat. split; [cbn; lia | reflexivity].
    + destruct (IH (fold_left (process_event quiet) (firstn BUF_EV evs) st)) as (k & Hk & H).
      exists (S k). split; [cbn; lia |]. rewrite H. cbn [firstn].
      now rewrite delivered_cons_batch, fold_left_app.
    + destruct (IH st) as (k & Hk & H). exists (S k). split; [cbn; lia | exact H].
    + destruct (IH st) as (k & Hk & H). exists (S k). split; [cbn; lia | exact H].
    + destruct (IH st) as (k & Hk & H). exists (S k). split; [cbn; lia | exact H].
Qed.

Lemma run_loop_transient limit quiet it env st :
  transient it = true -> g_stop it = false ->
  is_done (run_loop limit quiet (it :: env) st) = is_done (run_loop limit quiet env st)
  /\ accum (state_of (run_loop limit quiet (it :: env) st))
     = accum (state_of (run_loop limit quiet env st)).
Proof.
  intros Ht Hs. cbn [run_loop]. rewrite Hs.
  destruct (loop_cond false limit st) eqn:Hc.
  - unfold transient in Ht.
    destruct (polled it) as [| | | [] [| | evs]]; try discriminate Ht; try (now split).
    apply run_loop_accum, say_accum.
  - rewrite (run_loop_left limit quiet env st Hc). now split.
Qed.

Lemma run_loop_unending quiet env st :
  forallb (fun it => negb (ending it)) env = true ->
  is_done (run_loop 0 quiet env st) = false
  /\ accum (state_of (run_loop 0 quiet env st))
     = accum (fold_left (process_event quiet) (delivered env) st).
Proof.
  revert st. induction env as [| it env IH]; intros st H; cbn [run_loop].
  - unfold loop_cond. cbn. now split.
  - cbn [forallb] in H. apply andb_true_iff in H as [Hit Henv].
    unfold ending in Hit. apply negb_true_iff, orb_false_iff in Hit as [Hs Hp].
    unfold loop_cond. rewrite Hs. cbn [negb andb Z.eqb orb].
    destruct it as [stop [| | | [] [| | evs]]]; cbn [polled g_stop] in *;
      try discriminate Hp; try (now apply IH).
    + destruct (IH (say (if quiet then [] else [MIdle]) st) Henv) as [Hd Ha].
      split; [exact Hd |]. rewrite Ha. cbn [delivered polled]. apply fold_accum, say_accum.
    + destruct (IH (fold_left (process_event quiet) (firstn BUF_EV evs) st) Henv) as [Hd Ha].
      split; [exact Hd |]. rewrite Ha. now rewrite delivered_cons_batch, fold_left_app.
Qed.

End Trace.

(** X8. The loop over a trace of answers is the loop over a first part
    of it, carried on over the rest from the state reached: once left
    (limit reached, stop flag seen, or fatal error) it takes nothing more;
    otherwise it goes on as if started there. *)
Theorem run_loop_composes :
  forall (limit : Z) (quiet : bool) (pre post : list iteration) (st : state double),
    run_loop limit quiet (pre ++ post) st
    = match run_loop limit quiet pre st with
      | Done st1 => Done st1
      | Waiting st1 => run_loop limit quiet post st1
      end.
Proof. intros. apply run_loop_app. Qed.

(** X9. The loop never stops inside a batch: wherever it is left or
    waiting, the samples and counters are those obtained by taking every
    record (within the buffer size) of the reads of some first [k]
    answers, and no record of a later one. *)
Theorem never_stops_mid_batch :
  forall (limit : Z) (quiet : bool) (env : list iteration) (st : state double),
    exists k : nat,
      (k <= length env)%nat
      /\ accum (state_of (run_loop limit quiet env st))
         = accum (fold_left (process_event quiet) (delivered (firstn k env)) st).
Proof. intros. apply run_loop_whole_batches. Qed.

(** X10. An interrupted or timed-out [poll], a readiness without data
    and a [read] to be retried are passed over: with the stop flag
    clear, such an answer anywhere in the trace changes neither where
    the loop ends nor the samples and counters it ends with. *)
Theorem transient_answers_skipped :
  forall (limit : Z) (quiet : bool) (it : iteration) (pre post : list iteration)
         (st : state double),
    transient it = true -> g_stop it = false ->
    is_done (run_loop limit quiet (pre ++ it :: post) st)
    = is_done (run_loop limit quiet (pre ++ post) st)
    /\ accum (state_of (run_loop limit quiet (pre ++ it :: post) st))
       = accum (state_of (run_loop limit quiet (pre ++ post) st)).
Proof.
  intros limit quiet it pre post st Ht Hs.
  rewrite !run_loop_app.
  destruct (run_loop limit quiet pre st) as [st1 | st1]; [now split |].
  now apply run_loop_transient.
Qed.

Lemma transient_answers_skipped_witness :
  accum (state_of (run_loop (D := double) 0 true
                     (interrupted_poll :: answers two_presses) (init_state [])))
  = accum (state_of (run_loop (D := double) 0 true (answers two_presses) (init_state []))).
Proof.
  exact (proj2 (transient_answers_skipped 0 true interrupted_poll [] (answers two_presses)
                  (init_state []) eq_refl eq_refl)).
Defined.

(** X11. Without a limit (limit = 0), and as long as no answer carries
    the stop flag or a fatal error, the loop is never left and every
    record delivered (within the buffer size of each read) is
    processed, in order. *)
Theorem unlimited_run_takes_everything :
  forall (quiet : bool) (env : list iteration) (st : state double),
    forallb (fun it => negb (ending it)) env = true ->
    is_done (run_loop 0 quiet env st) = false
    /\ accum (state_of (run_loop 0 quiet env st))
       = accum (fold_left (process_event quiet) (delivered env) st).
Proof. intros. now apply run_loop_unending. Qed.

Lemma unlimited_run_takes_everything_witness :
  is_done (run_loop (D := double) 0 true (answers two_presses) (init_state [])) = false
  /\ accum (state_of (run_loop (D := double) 0 true (answers two_presses) (init_state [])))
     = ([B64.of_Z 10; B64.of_Z 10], 2, 2).
Proof.
  destruct (unlimited_run_takes_everything true (answers two_presses) (init_state [])
              eq_refl) as [Hd Ha].
  split; [exact Hd |]. rewrite Ha. reflexivity.
Defined.

(** X12. A negative limit ends the run before it starts: the loop body
    is never entered, whatever the device would deliver, and [main]
    returns 0 after the "no measurable events" notice and totals of
    0 and 0. *)
Theorem negative_limit_reads_nothing :
  forall (prog dev : string) (args : list string) (os : system) (limit : Z) (quiet : bool),
    parse_args args 0 false = Parsed limit quiet ->
    limit < 0 -> open_ok os = true ->
    main (D := double) (prog :: dev :: args) os
    = Exit 0 (startup quiet dev os ++ [MNoData; MTotals 0 0]).
Proof.
  intros prog dev args os limit quiet Hp Hl Ho. cbn [main]. rewrite Hp, Ho. cbn [negb].
  rewrite run_loop_left; [reflexivity |].
  unfold loop_cond. cbn [init_state latencies_us length negb andb].
  replace (limit =? 0) with false by (symmetry; apply Z.eqb_neq; lia).
  change (to_int (u64 (Z.of_nat 0))) with 0.
  cbn [orb]. apply Z.ltb_ge. lia.
Qed.

Lemma negative_limit_reads_nothing_witness :
  main (D := double) argv_limit_minus_3 two_presses
  = Exit 0 [MDevice "/dev/input/event3" "keyboard"; MCollecting; MNoData; MTotals 0 0].
Proof.
  exact (negative_limit_reads_nothing "input_latency"%string "/dev/input/event3"%string
           ["--limit"; "-3"]%string two_presses (-3) false eq_refl eq_refl eq_refl).
Defined.

(** ** Rolling summaries *)

Lemma div_50_succ (n : nat) :
  (S n / 50 = n / 50 + (if S n mod 50 =? 0 then 1 else 0))%nat
  /\ ((S n mod 50 =? 0)%nat = true -> S n = 50 * (n / 50 + 1))%nat.
Proof.
  pose proof (Nat.div_mod_eq n 50). pose proof (Nat.mod_upper_bound n 50 ltac:(lia)).
  pose proof (Nat.div_mod_eq (S n) 50). pose proof (Nat.mod_upper_bound (S n) 50 ltac:(lia)).
  split.
  - destruct (Nat.eqb_spec (S n mod 50) 0); lia.
  - intros H'. apply Nat.eqb_eq in H'. lia.
Qed.

Lemma mod_50_of_nat (n : nat) : (Z.of_nat n mod 50 =? 0) = (n mod 50 =? 0)%nat.
Proof.
  change 50 with (Z.of_nat 50). rewrite <- (Nat2Z.inj_mod n 50).
  destruct (Z.eqb_spec (Z.of_nat (n mod 50)) 0), (Nat.eqb_spec (n mod 50) 0);
    try reflexivity; lia.
Qed.

Section Rolling.

Context {D : Type} {A : Arith D}.

Implicit Types (st : state D) (x : input_event * timespec).

Lemma process_event_summaries st x :
  summaries (output (process_event false st x))
  = summaries (output st)
    ++ (if timed x && (u64 (measured_events st + 1) mod 50 =? 0)
        then [S (length (latencies_us st))] else []).
Proof.
  destruct (timed x) eqn:Hx.
  - pose proof Hx as [Hm Hle]%timed_spec.
    destruct x as [ev now]. cbn [fst snd] in *.
    unfold process_event. rewrite Hm. cbn [negb].
    apply Z.leb_le in Hle. rewrite Hle. cbn [output andb].
    rewrite !summaries_app. cbn [summaries app]. f_equal.
    destruct (u64 (measured_events st + 1) mod 50 =? 0); [| reflexivity].
    rewrite print_stats_nonempty by (now destruct (latencies_us st)).
    cbn [summaries]. rewrite length_app. cbn [length]. f_equal. lia.
  - destruct (process_event_untimed false st x Hx) as (_ & _ & ->).
    cbn [andb]. now rewrite app_nil_r.
Qed.

Lemma rolling_cadence (xs : list (input_event * timespec)) (out : list (msg D)) :
  Z.of_nat (length xs) < 2 ^ 64 ->
  summaries (output (fold_left (process_event false) xs (init_state out)))
  = summaries out ++ map (fun k => 50 * k)%nat (seq 1 (length (filter timed xs) / 50)).
Proof.
  induction xs as [| x xs IH] using rev_ind; intros Hlen.
  - cbn. now rewrite app_nil_r.
  - rewrite length_app, Nat2Z.inj_add in Hlen. cbn [length] in Hlen.
    rewrite fold_left_app. cbn [fold_left].
    set (st := fold_left (process_event false) xs (init_state out)) in *.
    rewrite process_event_summaries, IH by lia. rewrite <- app_assoc. f_equal.
    destruct (reach_counters false out xs st (reach_fold false xs (init_state out))
                ltac:(lia)) as (_ & Hm & Hle).
    assert (Hn : length (latencies_us st) = length (filter timed xs)).
    { subst st. rewrite fold_process_latencies. cbn [init_state latencies_us app].
      apply length_map. }
    rewrite filter_app, length_app. cbn [filter].
    destruct (timed x); cbn [andb length].
    2:{ rewrite Nat.add_0_r. now rewrite app_nil_r. }
    rewrite Hm, Hn in *.
    set (n := length (filter timed xs)) in *.
    rewrite u64_small by lia.
    replace (Z.of_nat n + 1) with (Z.of_nat (S n)) by lia.
    rewrite mod_50_of_nat. replace (n + 1)%nat with (S n) by lia.
    destruct (div_50_succ n) as [Hq Hr]. rewrite Hq.
    destruct (S n mod 50 =? 0)%nat.
    + rewrite Nat.add_1_r, seq_S, map_app. cbn [map]. do 2 f_equal.
      specialize (Hr eq_refl). lia.
    + now rewrite Nat.add_0_r, app_nil_r.
Qed.

End Rolling.

(** X13. Unless [--quiet] is given, a rolling summary is printed each
    time the number of samples reaches a multiple of 50, over all the
    samples so far: after any records (fewer than 2^64) the rolling
    summaries printed are over 50, 100, 150, ... samples, one for each
    full fifty. *)
Theorem rolling_summary_every_50 :
  forall (xs : list (input_event * timespec)) (out : list (msg double)),
    Z.of_nat (length xs) < 2 ^ 64 ->
    summaries (output (fold_left (process_event false) xs (init_state out)))
    = summaries out ++ map (fun k => 50 * k)%nat (seq 1 (length (filter timed xs) / 50)).
Proof. intros. now apply rolling_cadence. Qed.

Lemma rolling_summary_every_50_witness :
  summaries (output (fold_left (process_event (D := double) false) fifty_presses (init_state [])))
  = [50%nat].
Proof.
  rewrite (rolling_summary_every_50 fifty_presses []); [reflexivity | cbn; lia].
Defined.

(** ** More on [percentile] *)

(** X14. Over a single sample, [percentile] returns that sample for
    every p that is a number, the infinities included (for a NaN the
    cast of the index to [size_t] is undefined in C++). *)
Theorem percentile_singleton :
  forall (x p : double), p <> S754_nan -> percentile [x] p = x.
Proof.
  intros x p _. unfold percentile.
  destruct (leb p (of_Z 0)); [reflexivity |].
  destruct (leb (of_Z 100) p); [reflexivity |].
  cbn [length]. change (u64 (Z.of_nat 1 - 1)) with 0.
  cbn [of_Z trunc mul div sub add double_arith].
  change (B64.of_Z 0) with (S754_zero false).
  assert (Hi : B64.trunc (B64.mul (B64.div p (B64.of_Z 100)) (S754_zero false)) = 0).
  { destruct (B64.div p (B64.of_Z 100)) as [s | s | | s m e]; reflexivity. }
  rewrite Hi. reflexivity.
Qed.

Lemma percentile_singleton_witness :
  percentile [B64.of_Z 10] (B64.of_Z 95) = B64.of_Z 10.
Proof.
  apply percentile_singleton. vm_compute. discriminate.
Defined.

(** ** The sorted copy *)

Lemma ltb64_asym (x y : double) :
  has_sign false x -> has_sign false y -> ltb x y = true -> ltb y x = false.
Proof.
  intros Hx Hy H. apply not_true_is_false. intros H'.
  apply (ltb_key x y Hx Hy) in H. apply (ltb_key y x Hy Hx) in H'.
  destruct (key x) as [[c1 e1] m1], (key y) as [[c2 e2] m2]. cbn in H, H'. lia.
Qed.

Lemma ltb64_trans (x y z : double) :
  has_sign false x -> has_sign false y -> has_sign false z ->
  ltb x y = true -> ltb y z = true -> ltb x z = true.
Proof.
  intros Hx Hy Hz H1 H2.
  apply (ltb_key x y Hx Hy) in H1. apply (ltb_key y z Hy Hz) in H2.
  apply (ltb_key x z Hx Hz).
  destruct (key x) as [[c1 e1] m1], (key y) as [[c2 e2] m2], (key z) as [[c3 e3] m3].
  cbn in *. lia.
Qed.

Lemma ltb64_connex (x y : double) :
  has_sign false x -> has_sign false y -> ltb x y = false -> ltb y x = false -> x = y.
Proof.
  intros Hx Hy H1 H2.
  apply (ltb_false_key x y Hx Hy) in H1. apply (ltb_false_key y x Hy Hx) in H2.
  apply key_inj; auto.
  destruct (key x) as [[c1 e1] m1], (key y) as [[c2 e2] m2].
  cbn in H1, H2. f_equal; [f_equal |]; lia.
Qed.

Lemma sort64_sorted (l : list double) :
  Forall (has_sign false) l -> std_sorted (sort l).
Proof. apply (sort_sorted (has_sign false) ltb64_asym ltb64_trans ltb64_connex). Qed.

(** X15. Whatever the run, the copy that a summary sorts holds the
    samples of the accumulator, each as often as there, in an order in
    which no sample is less than an earlier one. *)
Theorem sorted_copy_of_accumulator :
  forall (limit : Z) (quiet : bool) (env : list iteration) (out : list (msg double)),
    let lat := latencies_us (state_of (run_loop limit quiet env (init_state out))) in
    Permutation (sort lat) lat /\ std_sorted (sort lat).
Proof.
  intros limit quiet env out lat. split; [apply sort_perm |].
  apply sort64_sorted, run_samples_sign.
Qed.

(** X16. A summary does not depend on the order in which the samples
    arrived: two accumulators holding the same samples (none NaN, none
    with the sign bit set, as in every run) get the same count, the same
    average and the same percentiles, bit for bit. *)
Theorem summary_ignores_arrival_order :
  forall (l l' : list double) (final : bool),
    Forall (has_sign false) l -> Permutation l l' ->
    print_stats l final = print_stats l' final.
Proof.
  intros l l' final Hl Hperm.
  assert (Hl' : Forall (has_sign false) l') by now apply (Permutation_Forall Hperm).
  assert (Hs : sort l' = sort l).
  { apply std_sort_unique; [exact Hl | | now apply sort64_sorted].
    now rewrite sort_perm, Hperm. }
  destruct l as [| x l].
  - apply Permutation_nil in Hperm. now subst.
  - destruct l' as [| x' l'];
      [now apply Permutation_sym, Permutation_nil in Hperm |].
    rewrite !print_stats_nonempty by discriminate.
    now rewrite Hs, (Permutation_length Hperm).
Qed.

Lemma summary_ignores_arrival_order_witness :
  print_stats [B64.of_Z 300; B64.of_Z 100; B64.of_Z 200] true
  = print_stats [B64.of_Z 100; B64.of_Z 200; B64.of_Z 300] true.
Proof.
  apply summary_ignores_arrival_order.
  - repeat constructor.
  - exact (Permutation_cons_append [B64.of_Z 100; B64.of_Z 200] (B64.of_Z 300)).
Defined.

(** ** The totals *)

(** X17. When [main] returns after the loop (fewer than 2^64 records
    delivered), the last thing printed is the totals; the "latencies
    measured" total is the number of samples, at most the "events seen"
    total, itself at most the number of records delivered; the final
    summary, present exactly when that number is not 0, is over that
    many samples, and the "no measurable events" notice is printed
    exactly when it is 0. *)
Theorem totals_match_summary :
  forall (argv : list string) (os : system) (out : list (msg double)),
    main argv os = Exit 0 out ->
    Z.of_nat (length (delivered (answers os))) < 2 ^ 64 ->
    exists total measured : Z,
      last out MNoData = MTotals total measured
      /\ 0 <= measured <= total
      /\ total <= Z.of_nat (length (delivered (answers os)))
      /\ final_summaries out = (if measured =? 0 then [] else [Z.to_nat measured])
      /\ (measured = 0 <-> In MNoData out).
Proof.
  intros argv os out Hmain Hlen.
  destruct (main_exit_0 _ os out Hmain)
    as (prog & dev & args & limit & quiet & st & _ & _ & _ & Hrun & ->).
  pose proof (run_loop_output_ok (D := double) limit quiet (answers os)
                (init_state (startup quiet dev os)) (startup_ok quiet dev os)) as Hok.
  destruct (run_loop_reach (D := double) limit quiet (answers os)
              (init_state (startup quiet dev os))) as (xs & rest & Hd & Hr).
  rewrite Hrun in Hok, Hr. cbn [state_of] in Hok, Hr.
  assert (Hxs : (length xs <= length (delivered (answers os)))%nat)
    by (rewrite Hd, length_app; lia).
  destruct (reach_counters quiet _ xs st Hr ltac:(lia)) as (Ht & Hm & Hle).
  exists (total_events st), (measured_events st).
  rewrite final_summaries_app, (loop_msgs_final _ _ Hok). cbn [app].
  split; [| split; [lia | split; [lia |]]].
  - unfold epilogue. rewrite app_assoc. apply last_last.
  - destruct (latencies_us st) as [| x l] eqn:Hl.
    + rewrite (epilogue_empty st Hl). cbn [length] in Hm. rewrite Hm. cbn.
      split; [reflexivity |]. split; [intros _ | reflexivity].
      apply in_or_app. right. now left.
    + assert (Hne : latencies_us st <> []) by (rewrite Hl; discriminate).
      rewrite (epilogue_nonempty st Hne), Hl. cbn [final_summaries].
      replace (measured_events st =? 0) with false
        by (symmetry; apply Z.eqb_neq; rewrite Hm; cbn [length]; lia).
      split; [f_equal; rewrite Hm; lia |].
      split; [intros H0; rewrite Hm in H0; cbn [length] in H0; lia |].
      intros [Hin | [Hin | [Hin | []]]]%in_app_or; try discriminate Hin.
      exfalso. exact (loop_msgs_no_notice _ _ Hok Hin).
Qed.

Lemma totals_match_summary_witness :
  exists total measured : Z,
    last two_presses_output MNoData = MTotals total measured
    /\ 0 <= measured <= total
    /\ total <= 2
    /\ final_summaries two_presses_output = (if measured =? 0 then [] else [Z.to_nat measured])
    /\ (measured = 0 <-> In MNoData two_presses_output).
Proof.
  exact (totals_match_summary argv_limit_1 two_presses two_presses_output eq_refl
           ltac:(cbn; lia)).
Defined.

(** ** The command line *)

Lemma list_pair_ind (P : list string -> Prop) :
  P [] -> (forall a, P [a]) -> (forall a b l, P l -> P (b :: l) -> P (a :: b :: l)) ->
  forall l, P l.
Proof.
  intros H0 H1 H2 l.
  assert (H : P l /\ forall a, P (a :: l)); [| exact (proj1 H)].
  induction l as [| b l [IH1 IH2]]; [split; [exact H0 | exact H1] |].
  split; [apply IH2 |]. intros a. apply H2; [exact IH1 | apply IH2].
Qed.

Lemma stoi_range (s : string) (z : Z) :
  stoi s = inr z -> - 2 ^ 31 <= z <= 2 ^ 31 - 1.
Proof.
  unfold stoi.
  destruct (match skip_space s with
            | String "-"%char r => (true, r)
            | String "+"%char r => (false, r)
            | _ => (false, skip_space s)
            end) as [neg s2].
  destruct (digits s2 0 false) as [n seen].
  destruct (negb seen); [discriminate |].
  destruct ((- 2 ^ 31 <=? (if neg then - n else n))
            && ((if neg then - n else n) <=? 2 ^ 31 - 1)) eqn:H; [| discriminate].
  intros [= <-]. apply andb_true_iff in H as [H1 H2].
  apply Z.leb_le in H1, H2. lia.
Qed.

Lemma parse_args_pair (a b : string) (rest : list string) (limit : Z) (quiet : bool) :
  parse_args (a :: b :: rest) limit quiet
  = if String.eqb a "--limit" then
      match stoi b with
      | inr z => parse_args rest z quiet
      | inl e => Thrown e
      end
    else if String.eqb a "--quiet" then parse_args (b :: rest) limit true
    else Unknown a.
Proof. reflexivity. Qed.

Lemma parse_args_single (a : string) (limit : Z) (quiet : bool) :
  parse_args [a] limit quiet
  = if String.eqb a "--quiet" then Parsed limit true else Unknown a.
Proof. reflexivity. Qed.

(** X18. The limit that the command line yields is an [int]: when the
    arguments are accepted, the limit is either the one the parsing
    started with (0, "unlimited", in [main]) or a value that
    [std::stoi] returned, between -2^31 and 2^31 - 1. *)
Theorem parsed_limit_is_int :
  forall (args : list string) (limit0 : Z) (quiet0 : bool) (limit : Z) (quiet : bool),
    parse_args args limit0 quiet0 = Parsed limit quiet ->
    limit = limit0 \/ - 2 ^ 31 <= limit <= 2 ^ 31 - 1.
Proof.
  intros args. induction args as [| a | a b rest IH1 IH2] using list_pair_ind;
    intros limit0 quiet0 limit quiet.
  - intros [= <- <-]. now left.
  - rewrite parse_args_single. destruct (String.eqb a "--quiet"); [| discriminate].
    intros [= <- <-]. now left.
  - rewrite parse_args_pair. destruct (String.eqb a "--limit").
    + destruct (stoi b) as [e | z] eqn:Hs; [discriminate |].
      intros H. destruct (IH1 _ _ _ _ H) as [-> | Hr]; [| now right].
      right. now apply stoi_range with b.
    + destruct (String.eqb a "--quiet"); [| discriminate]. apply IH2.
Qed.

Lemma parsed_limit_is_int_witness :
  1 = 0 \/ - 2 ^ 31 <= 1 <= 2 ^ 31 - 1.
Proof.
  exact (parsed_limit_is_int ["--limit"; "1"; "--quiet"]%string 0 false 1 true eq_refl).
Defined.

(** X19. When the arguments are accepted, quiet mode is on exactly when
    it was on before or [--quiet] occurs among them, wherever it occurs;
    and without any [--limit] among them the limit is left as it
    was. *)
Theorem parsed_options :
  forall (args : list string) (limit0 : Z) (quiet0 : bool) (limit : Z) (quiet : bool),
    parse_args args limit0 quiet0 = Parsed limit quiet ->
    quiet = quiet0 || existsb (fun a => String.eqb a "--quiet") args
    /\ (existsb (fun a => String.eqb a "--limit") args = false -> limit = limit0).
Proof.
  intros args. induction args as [| a | a b rest IH1 IH2] using list_pair_ind;
    intros limit0 quiet0 limit quiet.
  - intros [= <- <-]. cbn. now rewrite orb_false_r.
  - rewrite parse_args_single. cbn [existsb].
    destruct (String.eqb a "--quiet"); [| discriminate].
    intros [= <- <-]. cbn. now rewrite orb_true_r.
  - rewrite parse_args_pair. cbn [existsb].
    destruct (String.eqb_spec a "--limit") as [-> | Hna].
    + destruct (stoi b) as [e | z] eqn:Hs; [discriminate |].
      intros H. destruct (IH1 _ _ _ _ H) as [Hq _]. split; [| discriminate].
      rewrite Hq. cbn [String.eqb Ascii.eqb Bool.eqb orb].
      destruct (String.eqb_spec b "--quiet") as [-> | _]; [discriminate Hs | reflexivity].
    + destruct (String.eqb a "--quiet"); [| discriminate].
      intros H. destruct (IH2 _ _ _ _ H) as [Hq Hl]. split.
      * rewrite Hq. cbn [existsb orb]. now rewrite orb_true_r.
      * cbn [orb]. exact Hl.
Qed.

Lemma parsed_options_witness :
  true = false || existsb (fun a => String.eqb a "--quiet") ["--limit"; "1"; "--quiet"]%string.
Proof.
  exact (proj1 (parsed_options ["--limit"; "1"; "--quiet"]%string 0 false 1 true eq_refl)).
Defined.

(** X20. Accepted arguments can be followed by more: parsing the two
    lists one after the other is parsing the second from the limit and
    the quiet mode that the first one gave. *)
Theorem parse_args_composes :
  forall (args more : list string) (limit0 : Z) (quiet0 : bool) (limit : Z) (quiet : bool),
    parse_args args limit0 quiet0 = Parsed limit quiet ->
    parse_args (args ++ more) limit0 quiet0 = parse_args more limit quiet.
Proof.
  intros args more. induction args as [| a | a b rest IH1 IH2] using list_pair_ind;
    intros limit0 quiet0 limit quiet.
  - now intros [= <- <-].
  - rewrite parse_args_single.
    destruct (String.eqb_spec a "--quiet") as [-> | _]; [| discriminate].
    intros [= <- <-]. cbn [app]. destruct more as [| m more]; [reflexivity |].
    now rewrite parse_args_pair.
  - cbn [app]. rewrite !parse_args_pair. destruct (String.eqb a "--limit").
    + destruct (stoi b) as [e | z]; [discriminate |]. apply IH1.
    + destruct (String.eqb a "--quiet"); [| discriminate]. apply IH2.
Qed.

Lemma parse_args_composes_witness :
  parse_args (List.app ["--quiet"%string] ["--limit"%string; "1"%string]) 0 false
  = parse_args ["--limit"; "1"]%string 0 true.
Proof.
  exact (parse_args_composes ["--quiet"]%string ["--limit"; "1"]%string 0 false 0 true eq_refl).
Defined.

(** ** [--limit] and [std::stoi] *)

Lemma digits_stop (tail : string) (acc : Z) (seen : bool) :
  no_digit_ahead tail = true -> digits tail acc seen = (acc, seen).
Proof.
  destruct tail as [| c tail]; [reflexivity |]. cbn [no_digit_ahead digits].
  destruct (digit_of c); [discriminate | reflexivity].
Qed.

Lemma digits_acc (d : Decimal.uint) (tail : string) (acc : positive) :
  no_digit_ahead tail = true ->
  digits (DecimalString.NilEmpty.string_of_uint d ++ tail) (Zpos acc) true
  = (Zpos (Pos.of_uint_acc d acc), true).
Proof.
  intros Ht. revert acc.
  induction d as [| d IH | d IH | d IH | d IH | d IH | d IH | d IH | d IH | d IH | d IH];
    intros acc;
    cbn [DecimalString.NilEmpty.string_of_uint String.append digits Pos.of_uint_acc];
    [now apply digits_stop | ..];
    (match goal with
     | |- context [digit_of ?c] =>
         let v := eval vm_compute in (digit_of c) in change (digit_of c) with v
     end; cbv iota; rewrite <- IH; f_equal; lia).
Qed.

Lemma digits_zero (d : Decimal.uint) (tail : string) (seen : bool) :
  no_digit_ahead tail = true ->
  digits (DecimalString.NilEmpty.string_of_uint d ++ tail) 0 seen
  = (Z.of_N (Pos.of_uint d), seen || match d with Decimal.Nil => false | _ => true end).
Proof.
  intros Ht. revert seen.
  induction d as [| d IH | d IH | d IH | d IH | d IH | d IH | d IH | d IH | d IH | d IH];
    intros seen;
    cbn [DecimalString.NilEmpty.string_of_uint String.append digits Pos.of_uint];
    [rewrite orb_false_r; now apply digits_stop | ..];
    (match goal with
     | |- context [digit_of ?c] =>
         let v := eval vm_compute in (digit_of c) in change (digit_of c) with v
     end; cbv iota; rewrite orb_true_r).
  - change (10 * 0 + 0) with 0. rewrite IH. reflexivity.
  - exact (digits_acc d tail 1 Ht).
  - exact (digits_acc d tail 2 Ht).
  - exact (digits_acc d tail 3 Ht).
  - exact (digits_acc d tail 4 Ht).
  - exact (digits_acc d tail 5 Ht).
  - exact (digits_acc d tail 6 Ht).
  - exact (digits_acc d tail 7 Ht).
  - exact (digits_acc d tail 8 Ht).
  - exact (digits_acc d tail 9 Ht).
Qed.

Lemma skip_space_stop (c : ascii) (s : string) :
  isspace c = false -> skip_space (String c s) = String c s.
Proof. intros H. cbn [skip_space]. now rewrite H. Qed.

Lemma skip_space_blank (ws s : string) :
  blank ws = true -> skip_space (ws ++ s) = skip_space s.
Proof.
  induction ws as [| c ws IH]; [reflexivity |]. cbn [blank String.append skip_space].
  intros [Hc Hws]%andb_true_iff. rewrite Hc. now apply IH.
Qed.

Lemma stoi_blank (ws s : string) : blank ws = true -> stoi (ws ++ s) = stoi s.
Proof. intros H. unfold stoi. now rewrite skip_space_blank. Qed.

Lemma stoi_unsigned (d : Decimal.uint) (tail : string) :
  d <> Decimal.Nil -> no_digit_ahead tail = true ->
  stoi (DecimalString.NilEmpty.string_of_uint d ++ tail)
  = if fits_int (Z.of_N (Pos.of_uint d)) then inr (Z.of_N (Pos.of_uint d))
    else inl out_of_range.
Proof.
  intros Hd Ht. pose proof (digits_zero d tail false Ht) as Hz.
  destruct d; [contradiction | ..];
    cbn [DecimalString.NilEmpty.string_of_uint String.append] in *;
    unfold stoi; rewrite skip_space_stop by reflexivity;
    cbv beta iota; rewrite Hz; reflexivity.
Qed.

Lemma stoi_negative (d : Decimal.uint) (tail : string) :
  d <> Decimal.Nil -> no_digit_ahead tail = true ->
  stoi (String "-" (DecimalString.NilEmpty.string_of_uint d ++ tail))
  = if fits_int (- Z.of_N (Pos.of_uint d)) then inr (- Z.of_N (Pos.of_uint d))
    else inl out_of_range.
Proof.
  intros Hd Ht. pose proof (digits_zero d tail false Ht) as Hz.
  unfold stoi. rewrite skip_space_stop by reflexivity.
  cbv beta iota. rewrite Hz.
  destruct d; [contradiction | ..]; reflexivity.
Qed.

Lemma stoi_decimal (z : Z) (tail : string) :
  no_digit_ahead tail = true ->
  stoi (decimal z ++ tail) = if fits_int z then inr z else inl out_of_range.
Proof.
  intros Ht. unfold decimal.
  destruct z as [| p | p]; cbn [Z.to_int DecimalString.NilZero.string_of_int].
  - exact (stoi_unsigned Decimal.zero tail ltac:(discriminate) Ht).
  - pose proof (DecimalPos.Unsigned.to_uint_nonnil p) as Hn.
    pose proof (DecimalPos.Unsigned.of_to p) as Hp.
    unfold DecimalString.NilZero.string_of_uint.
    destruct (Pos.to_uint p) eqn:Hd; [contradiction | ..];
      rewrite <- Hd in *; rewrite stoi_unsigned, Hp by assumption; reflexivity.
  - pose proof (DecimalPos.Unsigned.to_uint_nonnil p) as Hn.
    pose proof (DecimalPos.Unsigned.of_to p) as Hp.
    unfold DecimalString.NilZero.string_of_uint.
    destruct (Pos.to_uint p) eqn:Hd; [contradiction | ..];
      rewrite <- Hd in *; cbn [String.append]; rewrite stoi_negative, Hp by assumption;
      reflexivity.
Qed.

(** X21. A limit written in decimal is read back as written: after
    [--limit], the decimal writing of [z] -- even after blanks and
    followed by anything that does not start with a digit -- sets the
    limit to [z] when [z] fits an [int], and makes [std::stoi] throw
    [std::out_of_range] when it does not. *)
Theorem limit_as_written :
  forall (z : Z) (ws tail : string) (rest : list string) (limit0 : Z) (quiet0 : bool),
    blank ws = true -> no_digit_ahead tail = true ->
    parse_args ("--limit"%string :: (ws ++ decimal z ++ tail)%string :: rest) limit0 quiet0
    = if fits_int z then parse_args rest z quiet0 else Thrown out_of_range.
Proof.
  intros z ws tail rest limit0 quiet0 Hws Ht.
  rewrite parse_args_pair. cbn [String.eqb Ascii.eqb Bool.eqb andb].
  rewrite stoi_blank, stoi_decimal by assumption.
  now destruct (fits_int z).
Qed.

Lemma limit_as_written_witness :
  parse_args argv_limit_padded 0 false = Parsed 500 true.
Proof.
  exact (limit_as_written 500 " "%string "us"%string ["--quiet"%string] 0 false
           eq_refl eq_refl).
Defined.

(** X22. When an argument is refused, the one reported is an argument
    of the command line other than [--quiet]; it is [--limit] only if
    that is the last argument, with no value after it. *)
Theorem unknown_arg_reported :
  forall (args : list string) (limit0 : Z) (quiet0 : bool) (a : string),
    parse_args args limit0 quiet0 = Unknown a ->
    In a args
    /\ a <> "--quiet"%string
    /\ (a = "--limit"%string -> last args ""%string = a).
Proof.
  intros args. induction args as [| a' | a' b rest IH1 IH2] using list_pair_ind;
    intros limit0 quiet0 a.
  - discriminate.
  - rewrite parse_args_single.
    destruct (String.eqb_spec a' "--quiet") as [-> | Hn]; [discriminate |].
    intros [= <-]. repeat split; [now left | exact Hn].
  - rewrite parse_args_pair.
    destruct (String.eqb_spec a' "--limit") as [-> | Hnl].
    + destruct (stoi b) as [e | z]; [discriminate |].
      intros H. destruct (IH1 _ _ _ H) as (Hin & Hq & Hl).
      repeat split; [right; now right | exact Hq |].
      intros Ha. specialize (Hl Ha).
      destruct rest as [| r rest]; [contradiction |]. exact Hl.
    + destruct (String.eqb_spec a' "--quiet") as [-> | Hnq].
      * intros H. destruct (IH2 _ _ _ H) as (Hin & Hq & Hl).
        repeat split; [now right | exact Hq | exact Hl].
      * intros [= <-]. repeat split; [now left | exact Hnq | intros Ha; contradiction].
Qed.

Lemma unknown_arg_reported_witness :
  In "--verbose"%string ["--quiet"; "--verbose"]%string
  /\ "--verbose"%string <> "--quiet"%string
  /\ ("--verbose"%string = "--limit"%string ->
      last ["--quiet"; "--verbose"]%string ""%string = "--verbose"%string).
Proof.
  exact (unknown_arg_reported ["--quiet"; "--verbose"]%string 0 false "--verbose"%string
           eq_refl).
Defined.

(** ** The median *)

Lemma pow2_lt_inv (a b : Z) : 0 <= b -> 2 ^ a < 2 ^ b -> a < b.
Proof. intros Hb H. apply Z.pow_lt_mono_r_iff in H; lia. Qed.

Lemma digits2_pos_shift (m q : positive) (j : Z) :
  0 <= j -> Zpos q = Zpos m * 2 ^ j ->
  Zpos (digits2_pos q) = Zpos (digits2_pos m) + j.
Proof.
  intros Hj Hq.
  pose proof (digits2_pos_bounds m) as [Hm1 Hm2].
  pose proof (digits2_pos_bounds q) as [Hq1 Hq2].
  assert (Hp : 0 < 2 ^ j) by (apply Z.pow_pos_nonneg; lia).
  assert (H1 : 2 ^ (Zpos (digits2_pos q) - 1) < 2 ^ (Zpos (digits2_pos m) + j)).
  { rewrite Z.pow_add_r by lia. nia. }
  assert (H2 : 2 ^ (Zpos (digits2_pos m) - 1 + j) < 2 ^ Zpos (digits2_pos q)).
  { rewrite Z.pow_add_r by lia. nia. }
  apply pow2_lt_inv in H1; [| lia]. apply pow2_lt_inv in H2; lia.
Qed.

Lemma shr_zero (mrs : shr_record) (e : Z) : shr mrs e 0 = (mrs, e).
Proof. reflexivity. Qed.

Lemma shr_record_exact (mrs : shr_record) (m : Z) :
  shr_m mrs = m -> shr_exact mrs = true -> mrs = shr_record_of_loc m loc_Exact.
Proof.
  destruct mrs as [mm r s]. unfold shr_exact. cbn. intros -> H.
  apply negb_true_iff, orb_false_iff in H as [-> ->]. reflexivity.
Qed.

(** A value that the format holds exactly is not changed by rounding. *)
Lemma binary_round_aux_exact (s : bool) (m q : positive) (e j : Z) :
  canonical_mantissa 53 1024 m e = true -> e <= 1024 - 53 ->
  0 <= j -> Zpos q = Zpos m * 2 ^ j ->
  binary_round_aux 53 1024 s (Zpos q) (e - j) loc_Exact = S754_finite s m e.
Proof.
  intros Hc He Hj Hq. unfold canonical_mantissa in Hc. apply Z.eqb_eq in Hc.
  assert (H1 : shr_fexp 53 1024 (Zpos q) (e - j) loc_Exact
               = (shr_record_of_loc (Zpos m) loc_Exact, e)).
  { unfold shr_fexp. cbn [Zdigits2].
    rewrite (digits2_pos_shift m q j Hj Hq).
    replace (Zpos (digits2_pos m) + j + (e - j)) with (Zpos (digits2_pos m) + e) by lia.
    rewrite Hc. replace (e - (e - j)) with j by lia.
    destruct j as [| pj | pj]; [| | lia].
    - rewrite shr_zero. rewrite Z.pow_0_r, Z.mul_1_r in Hq. injection Hq as ->.
      f_equal. lia.
    - unfold shr.
      destruct (iter_shr_1_spec pj (shr_record_of_loc (Zpos q) loc_Exact)) as [Hm Hx];
        [cbn; lia |].
      cbn [shr_record_of_loc shr_m] in Hm, Hx.
      assert (Hpow : 0 < 2 ^ Zpos pj) by (apply Z.pow_pos_nonneg; lia).
      assert (Hdiv : Zpos q / 2 ^ Zpos pj = Zpos m) by (rewrite Hq; apply Z.div_mul; lia).
      assert (Hmod : Zpos q mod 2 ^ Zpos pj = 0) by (rewrite Hq; apply Z.mod_mul; lia).
      rewrite Hdiv in Hm. rewrite Hmod in Hx.
      f_equal; [| lia]. apply shr_record_exact; [exact Hm | exact Hx]. }
  assert (H2 : shr_fexp 53 1024 (Zpos m) e loc_Exact
               = (shr_record_of_loc (Zpos m) loc_Exact, e)).
  { unfold shr_fexp. cbn [Zdigits2]. rewrite Hc, Z.sub_diag. apply shr_zero. }
  unfold binary_round_aux. rewrite H1. cbn [shr_record_of_loc shr_m loc_of_shr_record
                                          round_nearest_even].
  rewrite H2. cbn [shr_record_of_loc shr_m].
  now replace (e <=? 1024 - 53) with true by (symmetry; apply Z.leb_le; lia).
Qed.

Lemma shl_align_le (mx : positive) (ex ex' : Z) :
  ex' <= ex ->
  snd (shl_align mx ex ex') = ex'
  /\ Zpos (fst (shl_align mx ex ex')) = Zpos mx * 2 ^ (ex - ex').
Proof.
  intros H. unfold shl_align. destruct (ex' - ex) as [| d | d] eqn:Hd; cbn [fst snd].
  - replace ex' with ex by lia. rewrite Z.sub_diag. cbn. lia.
  - lia.
  - rewrite iter_xO. replace (ex - ex') with (Zpos d) by lia. lia.
Qed.

(** An integer below 2^53 converts to a normal number that is exactly
    that integer. *)
Lemma of_Z_normal (z : Z) :
  0 < z < 2 ^ 53 ->
  exists (m : positive) (e : Z),
    B64.of_Z z = S754_finite false m e
    /\ Zpos (digits2_pos m) = 53 /\ -52 <= e <= 0 /\ Zpos m = z * 2 ^ (- e).
Proof.
  intros Hz. destruct z as [| p | p]; try lia.
  pose proof (digits2_pos_bounds p) as [Hd1 Hd2].
  assert (Hd : 1 <= Zpos (digits2_pos p) <= 53).
  { split; [lia |]. assert (H : 2 ^ (Zpos (digits2_pos p) - 1) < 2 ^ 53) by lia.
    apply pow2_lt_inv in H; lia. }
  unfold B64.of_Z, binary_normalize, binary_round.
  assert (Hf : fexp B64.prec B64.emax (Zpos (digits2_pos p) + 0) = Zpos (digits2_pos p) - 53)
    by (unfold fexp, emin, B64.prec, B64.emax; lia).
  rewrite Hf.
  destruct (shl_align_le p 0 (Zpos (digits2_pos p) - 53) ltac:(lia)) as [He Hm].
  destruct (shl_align p 0 (Zpos (digits2_pos p) - 53)) as [mz ez]. cbn [fst snd] in He, Hm.
  subst ez.
  assert (Hdz : Zpos (digits2_pos mz) = 53).
  { rewrite (digits2_pos_shift p mz (0 - (Zpos (digits2_pos p) - 53))); [lia | lia | exact Hm]. }
  exists mz, (Zpos (digits2_pos p) - 53).
  split; [| split; [exact Hdz | split; [lia |]]].
  - rewrite <- (Z.sub_0_r (Zpos (digits2_pos p) - 53)) at 1.
    apply binary_round_aux_exact with (j := 0); try lia.
    unfold canonical_mantissa, fexp, emin. apply Z.eqb_eq. lia.
  - rewrite Hm. replace (0 - (Zpos (digits2_pos p) - 53)) with (- (Zpos (digits2_pos p) - 53)) by lia.
    reflexivity.
Qed.

Lemma trunc_of_Z (z : Z) : 0 <= z < 2 ^ 53 -> B64.trunc (B64.of_Z z) = z.
Proof.
  intros Hz. destruct (Z.eq_dec z 0) as [-> | Hne]; [reflexivity |].
  destruct (of_Z_normal z ltac:(lia)) as (m & e & -> & _ & He & Hm).
  unfold B64.trunc. cbn [cond_Zopp]. rewrite Z.shiftl_div_pow2 by lia.
  rewrite Hm. apply Z.div_mul. apply Z.pow_nonzero; lia.
Qed.

(** The literal [50.0] over [100.0], and [1.0]. *)
Lemma half_value :
  B64.div (B64.of_Z 50) (B64.of_Z 100) = S754_finite false 4503599627370496 (-53).
Proof. reflexivity. Qed.

Lemma one_value : B64.of_Z 1 = S754_finite false 4503599627370496 (-52).
Proof. reflexivity. Qed.

Lemma normal_unique (k a b : Z) (m1 m2 : positive) :
  0 < k -> 0 <= a -> 0 <= b ->
  Zpos (digits2_pos m1) = 53 -> Zpos (digits2_pos m2) = 53 ->
  Zpos m1 = k * 2 ^ a -> Zpos m2 = k * 2 ^ b -> a = b.
Proof.
  intros Hk Ha Hb H1 H2 Hm1 Hm2.
  pose proof (digits2_pos_bounds m1) as [L1 U1]. pose proof (digits2_pos_bounds m2) as [L2 U2].
  rewrite H1 in L1, U1. rewrite H2 in L2, U2.
  change (2 ^ (53 - 1)) with 4503599627370496 in *.
  change (2 ^ 53) with 9007199254740992 in *.
  destruct (Z.lt_trichotomy a b) as [Hlt | [Heq | Hgt]]; [| exact Heq |]; exfalso.
  - assert (Hs : 2 ^ b = 2 ^ a * 2 ^ (b - a)) by (rewrite <- Z.pow_add_r by lia; f_equal; lia).
    assert (2 ^ 1 <= 2 ^ (b - a)) by (apply Z.pow_le_mono_r; lia).
    assert (0 < 2 ^ a) by (apply Z.pow_pos_nonneg; lia).
    rewrite Hs in Hm2. nia.
  - assert (Hs : 2 ^ a = 2 ^ b * 2 ^ (a - b)) by (rewrite <- Z.pow_add_r by lia; f_equal; lia).
    assert (2 ^ 1 <= 2 ^ (a - b)) by (apply Z.pow_le_mono_r; lia).
    assert (0 < 2 ^ b) by (apply Z.pow_pos_nonneg; lia).
    rewrite Hs in Hm1. nia.
Qed.

(** Half of an even integer below 2^53 is computed exactly. *)
Lemma half_of_even (k : Z) :
  0 < k -> 2 * k < 2 ^ 53 ->
  B64.mul (B64.div (B64.of_Z 50) (B64.of_Z 100)) (B64.of_Z (2 * k)) = B64.of_Z k.
Proof.
  intros Hk H2k.
  destruct (of_Z_normal (2 * k) ltac:(lia)) as (m & e & -> & Hd & He & Hm).
  destruct (of_Z_normal k ltac:(lia)) as (mk & ek & -> & Hdk & Hek & Hmk).
  assert (Hab : - e + 1 = - ek).
  { apply (normal_unique k (- e + 1) (- ek) m mk); try lia.
    rewrite Hm, Z.pow_add_r by lia. lia. }
  assert (Hmm : mk = m).
  { assert (Zpos mk = Zpos m); [| congruence].
    rewrite Hm, Hmk, <- Hab, Z.pow_add_r by lia. lia. }
  subst mk. replace ek with (e - 1) by lia.
  rewrite half_value. unfold B64.mul, SFmul. cbn [xorb].
  replace (-53 + e) with (e - 1 - 52) by lia.
  apply binary_round_aux_exact; try lia.
  unfold canonical_mantissa, fexp, emin. apply Z.eqb_eq. lia.
Qed.

Lemma sub_self (z : Z) : 0 <= z < 2 ^ 53 -> B64.sub (B64.of_Z z) (B64.of_Z z) = S754_zero false.
Proof.
  intros Hz. destruct (Z.eq_dec z 0) as [-> | Hne]; [reflexivity |].
  destruct (of_Z_normal z ltac:(lia)) as (m & e & -> & _).
  unfold B64.sub, SFsub. now rewrite Z.sub_diag.
Qed.

Lemma mul_one (v : double) : B64.finite v = true -> B64.mul v (B64.of_Z 1) = v.
Proof.
  rewrite one_value. destruct v as [s | s | | s m e]; cbn [B64.finite]; try discriminate.
  - intros _. now destruct s.
  - unfold bounded. intros [Hc He]%andb_true_iff. apply Z.leb_le in He.
    unfold B64.mul, SFmul.
    replace (xorb s false) with s by (now destruct s).
    replace (e + -52) with (e - 52) by lia.
    apply binary_round_aux_exact; try exact Hc; try lia.
    exact He.
Qed.

Lemma mul_plus_zero (v : double) :
  B64.finite v = true -> has_sign false v -> B64.mul v (S754_zero false) = S754_zero false.
Proof.
  destruct v as [s | s | | s m e]; cbn [B64.finite has_sign]; try discriminate;
    intros _ ->; reflexivity.
Qed.

Lemma add_plus_zero (v : double) :
  B64.finite v = true -> has_sign false v -> B64.add v (S754_zero false) = v.
Proof.
  destruct v as [s | s | | s m e]; cbn [B64.finite has_sign]; try discriminate;
    intros _ ->; reflexivity.
Qed.

(** X23. On an odd number [2k+1] (below 2^53) of finite samples with a
    clear sign bit, [percentile] at 50 returns the middle element
    [v[k]] itself: the index [0.5 * (size - 1)] and the interpolation
    are computed in binary64 without any rounding. *)
Theorem median_of_odd_length :
  forall (v : list double) (k : nat),
    length v = (2 * k + 1)%nat -> Z.of_nat (length v) < 2 ^ 53 ->
    Forall (fun x => B64.finite x = true) v -> Forall (has_sign false) v ->
    percentile v (of_Z 50) = nth k v (of_Z 0).
Proof.
  intros v k Hlen Hn Hfin Hsign.
  assert (Hne : v <> []) by (intros ->; cbn in Hlen; lia).
  rewrite (percentile_nonempty v _ Hne).
  change (leb (of_Z 50) (of_Z 0)) with false.
  change (leb (of_Z 100) (of_Z 50)) with false. cbv iota.
  rewrite u64_small by (change (2 ^ 64) with 18446744073709551616;
                        change (2 ^ 53) with 9007199254740992 in Hn; lia).
  cbn [of_Z trunc mul div sub add double_arith]. cbv zeta.
  destruct k as [| k].
  - (* one sample *)
    rewrite Hlen. change (Z.of_nat (2 * 0 + 1) - 1) with 0.
    rewrite half_value. destruct v as [| x [| y v]]; try discriminate Hlen. reflexivity.
  - replace (Z.of_nat (length v) - 1) with (2 * Z.of_nat (S k)) by lia.
    rewrite half_of_even by lia.
    rewrite trunc_of_Z by lia.
    replace (Z.of_nat (S k) + 1 <? Z.of_nat (length v)) with true
      by (symmetry; apply Z.ltb_lt; lia).
    rewrite sub_self by lia.
    change (B64.sub (B64.of_Z 1) (S754_zero false)) with (B64.of_Z 1).
    rewrite Nat2Z.id.
    assert (Hk : (S k < length v)%nat) by lia.
    assert (Hk1 : (Z.to_nat (Z.of_nat (S k) + 1) < length v)%nat) by lia.
    rewrite Forall_forall in Hfin, Hsign.
    pose proof (nth_In v (B64.of_Z 0) Hk) as Hin.
    pose proof (nth_In v (B64.of_Z 0) Hk1) as Hin1.
    rewrite mul_one by (now apply Hfin).
    rewrite mul_plus_zero by (now auto).
    apply add_plus_zero; auto.
Qed.

Lemma median_of_odd_length_witness :
  percentile [B64.of_Z 100; B64.of_Z 200; B64.of_Z 300] (of_Z 50) = B64.of_Z 200.
Proof.
  apply (median_of_odd_length [B64.of_Z 100; B64.of_Z 200; B64.of_Z 300] 1).
  - reflexivity.
  - reflexivity.
  - repeat constructor.
  - repeat constructor.
Defined.

(** ** The clock request *)

Section Clock.

Context {D : Type} {A : Arith D}.

Lemma process_event_printed_first quiet (pre : list (msg D)) st x :
  process_event quiet (printed_first pre st) x = printed_first pre (process_event quiet st x).
Proof.
  destruct x as [ev now]. unfold process_event, printed_first.
  cbn [latencies_us total_events measured_events output].
  destruct (measure ev); cbn [negb]; [| reflexivity].
  destruct (tv_to_ns (ev_time ev) <=? ts_to_ns now); [| reflexivity].
  cbn [latencies_us total_events measured_events output].
  now rewrite <- app_assoc.
Qed.

Lemma fold_printed_first quiet (pre : list (msg D)) xs st :
  fold_left (process_event quiet) xs (printed_first pre st)
  = printed_first pre (fold_left (process_event quiet) xs st).
Proof.
  revert st. induction xs as [| x xs IH]; intros st; cbn [fold_left]; [reflexivity |].
  now rewrite process_event_printed_first, IH.
Qed.

Lemma say_printed_first (pre m : list (msg D)) st :
  say m (printed_first pre st) = printed_first pre (say m st).
Proof. unfold say, printed_first. cbn. now rewrite <- app_assoc. Qed.

(** The loop only appends to what is printed. *)
Lemma run_loop_printed_first limit quiet env (pre : list (msg D)) st :
  run_loop limit quiet env (printed_first pre st)
  = match run_loop limit quiet env st with
    | Done st' => Done (printed_first pre st')
    | Waiting st' => Waiting (printed_first pre st')
    end.
Proof.
  revert st. induction env as [| it env IH]; intros st; cbn [run_loop].
  - change (loop_cond false limit (printed_first pre st)) with (loop_cond false limit st).
    now destruct (loop_cond false limit st).
  - change (loop_cond (g_stop it) limit (printed_first pre st))
      with (loop_cond (g_stop it) limit st).
    destruct (loop_cond (g_stop it) limit st); [| reflexivity].
    destruct (polled it) as [| | | [] [| | evs]]; try apply IH;
      rewrite ?say_printed_first, ?fold_printed_first; try apply IH; reflexivity.
Qed.

(** X24. A refused EVIOCSCLOCKID request is not fatal: when the command
    line is accepted and the device opens, [main] does what it does with
    the request accepted, after one warning printed first; with
    [--quiet] not even that. *)
Theorem clock_refusal_only_warns :
  forall (prog dev : string) (args : list string) (os : system) (limit : Z) (quiet : bool),
    parse_args args 0 false = Parsed limit quiet ->
    open_ok os = true ->
    main (D := D) (prog :: dev :: args) (with_clock false os)
    = outcome_after (if quiet then [] else [MClockWarn])
        (main (prog :: dev :: args) (with_clock true os)).
Proof.
  intros prog dev args os limit quiet Hp Ho. unfold main. rewrite Hp.
  cbn [with_clock open_ok answers]. rewrite Ho. cbn [negb].
  set (pre := if quiet then [] else [MClockWarn]).
  assert (Hs : init_state (startup quiet dev (with_clock false os))
               = printed_first pre (init_state (startup quiet dev (with_clock true os)))).
  { unfold init_state, printed_first, startup, pre. cbn. now destruct quiet. }
  rewrite Hs, run_loop_printed_first.
  destruct (run_loop limit quiet (answers os) _) as [st | st]; cbn [outcome_after].
  - unfold printed_first at 1. cbn [output]. now rewrite <- app_assoc.
  - reflexivity.
Qed.

End Clock.

Lemma clock_refusal_only_warns_witness :
  main (D := double) ["input_latency"; "/dev/input/event3"; "--limit"; "1"]%string
    (with_clock false two_presses)
  = outcome_after [MClockWarn]
      (main ["input_latency"; "/dev/input/event3"; "--limit"; "1"]%string
         (with_clock true two_presses)).
Proof.
  exact (clock_refusal_only_warns (D := double) "input_latency" "/dev/input/event3"
           ["--limit"; "1"]%string two_presses 1 false eq_refl eq_refl).
Defined.

(** ** Whole microseconds *)

(** The literal [1000.0]. *)
Lemma thousand_value : B64.of_Z 1000 = S754_finite false 8796093022208000 (-43).
Proof. reflexivity. Qed.

(** A whole number of thousands below 2^53 is divided by 1000 exactly. *)
Lemma div_thousand_exact (k : Z) :
  0 <= k -> 1000 * k < 2 ^ 53 ->
  B64.div (B64.of_Z (1000 * k)) (B64.of_Z 1000) = B64.of_Z k.
Proof.
  intros Hk0 Hk. destruct (Z.eq_dec k 0) as [-> | Hne]; [reflexivity |].
  destruct (of_Z_normal (1000 * k) ltac:(lia)) as (m & e & -> & Hd & He & Hm).
  destruct (of_Z_normal k ltac:(lia)) as (mk & ek & -> & Hdk & Hek & Hmk).
  rewrite thousand_value.
  pose proof (digits2_pos_bounds m) as [L1 U1]. pose proof (digits2_pos_bounds mk) as [L2 U2].
  rewrite Hd in L1, U1. rewrite Hdk in L2, U2.
  change (2 ^ (53 - 1)) with 4503599627370496 in *.
  change (2 ^ 53) with 9007199254740992 in *.
  assert (Hj : 0 <= ek - e + 10).
  { destruct (Z_lt_le_dec (ek - e + 10) 0) as [Hlt | Hge]; [exfalso | exact Hge].
    assert (Hs : 2 ^ (- ek) = 2 ^ (- e) * 2 ^ (e - ek))
      by (rewrite <- Z.pow_add_r by lia; f_equal; lia).
    assert (2 ^ 11 <= 2 ^ (e - ek)) by (apply Z.pow_le_mono_r; lia).
    change (2 ^ 11) with 2048 in *.
    assert (0 < 2 ^ (- e)) by (apply Z.pow_pos_nonneg; lia).
    rewrite Hs in Hmk. nia. }
  set (Q := Zpos mk * 2 ^ (ek - e + 10)).
  assert (HQ : Z.shiftl (Zpos m) 53 = Q * 8796093022208000).
  { rewrite Z.shiftl_mul_pow2 by lia. unfold Q. rewrite Hm, Hmk.
    change (2 ^ 53) with (1024 * 8796093022208).
    assert (Hs : 2 ^ (- e) * 1024 = 2 ^ (- ek) * 2 ^ (ek - e + 10)).
    { rewrite <- Z.pow_add_r by lia. change 1024 with (2 ^ 10).
      rewrite <- Z.pow_add_r by lia. f_equal. lia. }
    nia. }
  assert (HQpos : 0 < Q) by (unfold Q; apply Z.mul_pos_pos; [lia | apply Z.pow_pos_nonneg; lia]).
  unfold B64.div, SFdiv, SFdiv_core_binary. cbn [Zdigits2 xorb]. rewrite Hd.
  change (Zpos (digits2_pos 8796093022208000)) with 53.
  replace (Z.min (fexp B64.prec B64.emax (53 + e - (53 + -43))) (e - -43)) with (e - 10)
    by (unfold fexp, emin, B64.prec, B64.emax; lia).
  replace (e - -43 - (e - 10)) with 53 by lia. cbv iota.
  rewrite (surjective_pairing (Z.div_eucl _ _)).
  change (fst (Z.div_eucl ?a ?b)) with (a / b).
  change (snd (Z.div_eucl ?a ?b)) with (a mod b).
  rewrite HQ, Z.div_mul, Z.mod_mul by lia.
  change (new_location 8796093022208000 0) with loc_Exact.
  destruct Q as [| q | q] eqn:EQ; try lia.
  replace (e - 10) with (ek - (ek - e + 10)) by lia.
  apply binary_round_aux_exact; try lia.
  unfold canonical_mantissa, fexp, emin. apply Z.eqb_eq. lia.
Qed.

(** X25. A latency of a whole number [k] of microseconds (below 2^53
    nanoseconds) is stored as exactly [k]: the division of the delta by
    [1000.0] does not round. *)
Theorem whole_microseconds_exact :
  forall (quiet : bool) (st : state double) (x : input_event * timespec) (k : Z),
    measure (fst x) = true -> 0 <= k -> 1000 * k < 2 ^ 53 -> delta_ns x = 1000 * k ->
    latencies_us (process_event quiet st x) = latencies_us st ++ [B64.of_Z k].
Proof.
  intros quiet st x k Hm Hk0 Hk Hd.
  assert (Ht : timed x = true).
  { unfold timed. rewrite Hm, Hd. cbn [andb]. apply Z.leb_le. lia. }
  destruct (process_event_timed quiet st x Ht) as [-> _].
  unfold sample_us. rewrite Hd. cbn [div of_Z double_arith].
  now rewrite div_thousand_exact.
Qed.

Lemma whole_microseconds_exact_witness :
  latencies_us (process_event true (init_state []) (key_press, clock_after))
  = [B64.of_Z 10].
Proof.
  apply (whole_microseconds_exact true (init_state []) (key_press, clock_after) 10).
  - reflexivity.
  - lia.
  - reflexivity.
  - reflexivity.
Defined.
